(** * cordis: lifecycle bus, plugin registry and service binding

    A shallow embedding of [src/src/lifecycle.ts] (the event bus and its
    task queue: [on], [off], [getHooks], the five dispatch methods, [start])
    and of [packages/core/src/registry.ts] together with the helpers of
    [utils.ts] it calls, followed by the properties of the specification that
    concern them.  [context.ts] and [scope.ts] are not among the sources:
    what the registry needs of them, and the service binding of section 4.1
    of the specification, are modelled from the specification and marked so.

    Functions of the host language are compared by reference, so a listener
    is a natural number (its identity) and what it does when called is looked
    up in an environment [bodies].  A body is a short script of bus
    operations followed by a completion: it returns a value, throws, or
    returns a promise.  The event loop is made deterministic: the promises
    that settle do so in the order in which they were created; a promise may
    also stay pending for ever, and what waits for it then never ends.  Event
    names
    are the declared keys of [Events]; the keys a plain object inherits from
    [Object.prototype] are not among them. *)

From stdpp Require Import gmap strings list fin_maps.
From Stdlib Require Import ZArith.

Open Scope string_scope.
Open Scope list_scope.

(** ** The event bus: [src/src/lifecycle.ts] *)

Module Lifecycle.

(** Contexts, scopes ([ctx.state]), listeners and sessions are objects of the
    host language; only their identity matters here. *)
Definition ctx := nat.
Definition scope := nat.
Definition lid := nat.
Definition session := nat.

(** What a listener body may do to the bus while it runs: [c.on(...)] and
    [c.off(...)] called through the context [c] it holds. *)
Inductive cmd :=
| COn (c : ctx) (name : string) (listener : lid) (prepend : bool)
| COff (c : ctx) (name : string) (listener : lid).

(** Values handed to and returned by listeners.  A promise carries the bus
    operations its asynchronous part performs before it settles, whether it
    is fulfilled or rejected, and the value or reason it settles with.
    [VPending later] is a promise that performs [later] and never settles. *)
Inductive value :=
| VUndefined
| VNull
| VBool (b : bool)
| VNum (n : Z)
| VStr (s : string)
| VRef (r : nat)
| VPromise (later : list cmd) (fulfilled : bool) (payload : value)
| VPending (later : list cmd).

(** How a call of a listener completes synchronously. *)
Inductive completion :=
| Return (v : value)
| Throw (e : value).

Record body := Body { sync : list cmd; result : completion }.

(** How a call of an [async] method of the bus settles; [Pending] when it
    never does. *)
Inductive settled :=
| Resolved (v : value)
| Rejected (e : value)
| Pending.

#[global] Instance cmd_eq_dec : EqDecision cmd.
Proof. solve_decision. Defined.
#[global] Instance value_eq_dec : EqDecision value.
Proof. solve_decision. Defined.

(** [isBailed], lines 9-11. *)
Definition isBailed (v : value) : bool :=
  match v with
  | VNull | VBool false | VUndefined => false
  | _ => true
  end.

(** An entry of the task queue: the promise handed to [TaskQueue.queue].
    [TValue v] is [queue(callback())] of [start], whose callback has already
    run; [TDeferred l] is [queue(sleep(0).then(() => listener()))] of [on],
    whose listener has not run yet. *)
Inductive task :=
| TValue (v : value)
| TDeferred (listener : lid).

#[global] Instance task_eq_dec : EqDecision task.
Proof. solve_decision. Defined.

(** Entries of [ctx.state.disposables] that the bus creates: the listener of
    a ['dispose'] registration, or the [dispose] closure of a hook. *)
Inductive disposable :=
| DListener (listener : lid)
| DUnhook (name : string) (listener : lid).

(** What [on] returns: [() => false], [() => remove(disposables, listener)]
    or the [dispose] closure. *)
Inductive disposer :=
| NoDisposer
| RemoveListener (s : scope) (listener : lid)
| Unhook (name : string) (listener : lid).

(** Calls of [logger.warn]. *)
Inductive warning :=
| WError (e : value)
| WMaxListeners (max : Z) (name : string).

(** Instrumentation: which listener was called with which arguments, and
    which awaited result has settled. *)
Inductive event :=
| Invoked (listener : lid) (this : option session) (args : list value)
| Settled (outcome : settled).

Record Config := { maxListeners : option Z }.

Record t := Bus {
  config : Config;
  isActive : bool;
  _tasks : list task;
  _hooks : gmap string (list (ctx * lid));
  disposables : gmap scope (list disposable);
  warnings : list warning;
  trace : list event
}.

Definition create (cfg : Config) : t :=
  Bus cfg false [] ∅ ∅ [] [].

Definition set_isActive (b : bool) (st : t) : t :=
  Bus (config st) b (_tasks st) (_hooks st) (disposables st) (warnings st) (trace st).
Definition set_tasks (ts : list task) (st : t) : t :=
  Bus (config st) (isActive st) ts (_hooks st) (disposables st) (warnings st) (trace st).
Definition set_hooks (h : gmap string (list (ctx * lid))) (st : t) : t :=
  Bus (config st) (isActive st) (_tasks st) h (disposables st) (warnings st) (trace st).
Definition set_disposables (d : gmap scope (list disposable)) (st : t) : t :=
  Bus (config st) (isActive st) (_tasks st) (_hooks st) d (warnings st) (trace st).
Definition warn (w : warning) (st : t) : t :=
  Bus (config st) (isActive st) (_tasks st) (_hooks st) (disposables st)
      (warnings st ++ [w]) (trace st).
Definition record (e : event) (st : t) : t :=
  Bus (config st) (isActive st) (_tasks st) (_hooks st) (disposables st)
      (warnings st) (trace st ++ [e]).

(** [this._hooks[name] || []] *)
Definition hooks_of (name : string) (st : t) : list (ctx * lid) :=
  default [] (_hooks st !! name).

(** [array.push(x)] and [array.unshift(x)], selected by [method]. *)
Definition add {A} (prepend : bool) (x : A) (l : list A) : list A :=
  if prepend then x :: l else l ++ [x].

(** [findIndex] over the hook list with the predicate of [off]. *)
Fixpoint findIndex (caller : ctx) (listener : lid) (l : list (ctx * lid)) : option nat :=
  match l with
  | [] => None
  | (c, cb) :: rest =>
      if decide (c = caller ∧ cb = listener) then Some 0
      else S <$> findIndex caller listener rest
  end.

Section Bus.

(** [ctx.state]: the scope that owns a context. *)
Variable state_of : ctx -> scope.

(** [context.match(session)]: the isolation filter of a context.  It lives in
    [context.ts]; the bus only calls it. *)
Variable matches : ctx -> option session -> bool.

(** The body of every listener, given [this] and the arguments. *)
Variable bodies : lid -> option session -> list value -> body.

Definition disposables_of (s : scope) (st : t) : list disposable :=
  default [] (disposables st !! s).

(** [TaskQueue.queue], lines 18-23: the task is added to the set. *)
Definition queue (k : task) (st : t) : t :=
  set_tasks (_tasks st ++ [k]) st.

(** [on], lines 130-157. *)
Definition on (caller : ctx) (name : string) (listener : lid) (prepend : bool)
    (st : t) : t * disposer :=
  if bool_decide (name = "ready") && isActive st then
    (queue (TDeferred listener) st, NoDisposer)
  else if decide (name = "dispose") then
    let s := state_of caller in
    (set_disposables
       (<[s := add prepend (DListener listener) (disposables_of s st)]> (disposables st)) st,
     RemoveListener s listener)
  else
    let hooks := hooks_of name st in
    let st1 :=
      match maxListeners (config st) with
      | Some max =>
          if (max <=? Z.of_nat (length hooks))%Z
          then warn (WMaxListeners max name) st else st
      | None => st
      end in
    let st2 := set_hooks (<[name := add prepend (caller, listener) hooks]> (_hooks st1)) st1 in
    let s := state_of caller in
    (set_disposables
       (<[s := disposables_of s st2 ++ [DUnhook name listener]]> (disposables st2)) st2,
     Unhook name listener).

(** [off], lines 173-180.  The result is [true] or [undefined]. *)
Definition off (caller : ctx) (name : string) (listener : lid) (st : t) : t * bool :=
  match findIndex caller listener (hooks_of name st) with
  | Some index =>
      (set_hooks (<[name := delete index (hooks_of name st)]> (_hooks st)) st, true)
  | None => (st, false)
  end.

(** [getHooks], lines 68-74.  The generator copies the list when the loop
    asks for its first element, before any callback has run; [match] does not
    depend on the bus, so filtering the copy at once yields the same
    callbacks as filtering it one element at a time. *)
Definition getHooks (name : string) (sess : option session) (st : t) : list lid :=
  (List.filter (fun h => matches (fst h) sess) (hooks_of name st)).*2.

Definition run_cmd (c : cmd) (st : t) : t :=
  match c with
  | COn c name l prepend => fst (on c name l prepend st)
  | COff c name l => fst (off c name l st)
  end.

Definition run_cmds (cs : list cmd) (st : t) : t :=
  fold_left (fun st c => run_cmd c st) cs st.

(** [callback.apply(session, args)]: the synchronous part of the listener
    runs and the call completes. *)
Definition invoke (l : lid) (this : option session) (args : list value) (st : t)
    : t * completion :=
  let b := bodies l this args in
  (run_cmds (sync b) (record (Invoked l this args) st), result b).

(** [await v]: a promise runs its asynchronous part and settles, unless it
    stays pending; a promise fulfilled with a promise adopts it; any other
    value is itself.  After [Pending] nothing that follows the [await] in the
    source runs. *)
Fixpoint await (v : value) (st : t) : t * settled :=
  match v with
  | VPromise later true payload => await payload (run_cmds later st)
  | VPromise later false reason => (run_cmds later st, Rejected reason)
  | VPending later => (run_cmds later st, Pending)
  | _ => (st, Resolved v)
  end.

(** Whether awaiting the value never ends. *)
Fixpoint pending (v : value) : bool :=
  match v with
  | VPromise _ true payload => pending payload
  | VPending _ => true
  | _ => false
  end.

Definition awaited (v : value) (st : t) : t * settled :=
  let '(st1, r) := await v st in
  match r with
  | Pending => (st1, Pending)
  | _ => (record (Settled r) st1, r)
  end.

(** [Promise.resolve(v).catch(error => logger.warn(error))]: the shape of
    every task of [parallel] and of the task queue. *)
Definition settle_task (v : value) (st : t) : t :=
  match awaited v st with
  | (st1, Rejected e) => warn (WError e) st1
  | (st1, Resolved _) => st1
  | (st1, Pending) => st1
  end.

(** [args[0] = result] *)
Definition set_first (r : value) (args : list value) : list value :=
  r :: tail args.

(** [args[0]] *)
Definition first (args : list value) : value :=
  hd VUndefined args.

(** The dispatch methods take [...args]: an optional session (taken when
    [typeof args[0] === 'object'], [null] otherwise), the event name, and the
    arguments of the callbacks.  Here these are three parameters.

    [parallel], lines 76-86.  The loop calls every callback and collects the
    guarded promises; a callback that throws leaves the loop and the method,
    which rejects at once: the state returned is the one at that moment, the
    promises collected so far being still pending.  Otherwise [Promise.all]
    waits for every collected promise, for ever when one of them stays
    pending. *)
Fixpoint parallel_loop (cbs : list lid) (sess : option session) (args : list value)
    (tasks : list value) (st : t) : t * (list value + value) :=
  match cbs with
  | [] => (st, inl tasks)
  | cb :: rest =>
      match invoke cb sess args st with
      | (st1, Return v) => parallel_loop rest sess args (tasks ++ [v]) st1
      | (st1, Throw e) => (st1, inr e)
      end
  end.

Definition parallel (sess : option session) (name : string) (args : list value)
    (st : t) : t * settled :=
  match parallel_loop (getHooks name sess st) sess args [] st with
  | (st1, inl tasks) =>
      (fold_left (fun st v => settle_task v st) tasks st1,
       if existsb pending tasks then Pending else Resolved VUndefined)
  | (st1, inr e) => (st1, Rejected e)
  end.

(** [waterfall], lines 92-100. *)
Fixpoint waterfall_loop (cbs : list lid) (sess : option session) (args : list value)
    (st : t) : t * settled :=
  match cbs with
  | [] => await (first args) st
  | cb :: rest =>
      match invoke cb sess args st with
      | (st1, Throw e) => (st1, Rejected e)
      | (st1, Return v) =>
          match awaited v st1 with
          | (st2, Rejected e) => (st2, Rejected e)
          | (st2, Resolved r) => waterfall_loop rest sess (set_first r args) st2
          | (st2, Pending) => (st2, Pending)
          end
      end
  end.

Definition waterfall (sess : option session) (name : string) (args : list value)
    (st : t) : t * settled :=
  waterfall_loop (getHooks name sess st) sess args st.

(** [chain], lines 102-110. *)
Fixpoint chain_loop (cbs : list lid) (sess : option session) (args : list value)
    (st : t) : t * completion :=
  match cbs with
  | [] => (st, Return (first args))
  | cb :: rest =>
      match invoke cb sess args st with
      | (st1, Throw e) => (st1, Throw e)
      | (st1, Return v) => chain_loop rest sess (set_first v args) st1
      end
  end.

Definition chain (sess : option session) (name : string) (args : list value)
    (st : t) : t * completion :=
  chain_loop (getHooks name sess st) sess args st.

(** [serial], lines 112-119. *)
Fixpoint serial_loop (cbs : list lid) (sess : option session) (args : list value)
    (st : t) : t * settled :=
  match cbs with
  | [] => (st, Resolved VUndefined)
  | cb :: rest =>
      match invoke cb sess args st with
      | (st1, Throw e) => (st1, Rejected e)
      | (st1, Return v) =>
          match awaited v st1 with
          | (st2, Rejected e) => (st2, Rejected e)
          | (st2, Resolved r) =>
              if isBailed r then (st2, Resolved r)
              else serial_loop rest sess args st2
          | (st2, Pending) => (st2, Pending)
          end
      end
  end.

Definition serial (sess : option session) (name : string) (args : list value)
    (st : t) : t * settled :=
  serial_loop (getHooks name sess st) sess args st.

(** [bail], lines 121-128. *)
Fixpoint bail_loop (cbs : list lid) (sess : option session) (args : list value)
    (st : t) : t * completion :=
  match cbs with
  | [] => (st, Return VUndefined)
  | cb :: rest =>
      match invoke cb sess args st with
      | (st1, Throw e) => (st1, Throw e)
      | (st1, Return v) =>
          if isBailed v then (st1, Return v)
          else bail_loop rest sess args st1
      end
  end.

Definition bail (sess : option session) (name : string) (args : list value)
    (st : t) : t * completion :=
  bail_loop (getHooks name sess st) sess args st.

(** [Set.delete(task)] *)
Fixpoint remove_task (k : task) (ts : list task) : list task :=
  match ts with
  | [] => []
  | k' :: rest => if decide (k' = k) then rest else k' :: remove_task k rest
  end.

(** What is left in the set of a task that has run as far as it gets and
    whose promise stays pending: a pending promise with nothing more to do. *)
Definition stuck : task := TValue (VPending []).

Fixpoint stick_task (k : task) (ts : list task) : list task :=
  match ts with
  | [] => []
  | k' :: rest => if decide (k' = k) then stuck :: rest else k' :: stick_task k rest
  end.

(** One task of the queue runs: its promise settles, a rejection is logged,
    and the task leaves the set (lines 19-21); a task whose promise stays
    pending never reaches [then] and stays in the set.  The deferred listener
    of a late ['ready'] registration is called here; a throw inside [then] is
    a rejection. *)
Definition run_task (k : task) (st : t) : t :=
  let '(st', stays) :=
    match k with
    | TValue v => (settle_task v st, pending v)
    | TDeferred l =>
        match invoke l None [] st with
        | (st1, Throw e) => (warn (WError e) (record (Settled (Rejected e)) st1), false)
        | (st1, Return v) => (settle_task v st1, pending v)
        end
    end in
  set_tasks (if stays then stick_task k (_tasks st') else remove_task k (_tasks st')) st'.

Definition run_tasks (ts : list task) (st : t) : t :=
  fold_left (fun st k => run_task k st) ts st.

(** [TaskQueue.flush], lines 25-29: every round waits for the tasks that are
    in the set when the round begins.  The loop need not terminate, hence the
    fuel: one unit per round.  A round that waits for a task that stays
    pending never ends: the task stays in the set, so that no fuel is
    enough. *)
Fixpoint flush (fuel : nat) (st : t) : option t :=
  match _tasks st with
  | [] => Some st
  | ts =>
      match fuel with
      | 0 => None
      | S fuel' => flush fuel' (run_tasks ts st)
      end
  end.

(** The loop of [start], lines 185-187: [callback()] runs first, then its
    value is queued. *)
Fixpoint start_loop (cbs : list lid) (st : t) : t * option value :=
  match cbs with
  | [] => (st, None)
  | cb :: rest =>
      match invoke cb None [] st with
      | (st1, Throw e) => (st1, Some e)
      | (st1, Return v) => start_loop rest (queue (TValue v) st1)
      end
  end.

(** [start], lines 182-190.  [None] when the fuel of [flush] runs out: with
    every fuel when [start] never settles. *)
Definition start (fuel : nat) (st : t) : option (t * settled) :=
  let st0 := set_isActive true st in
  match start_loop (getHooks "ready" None st0) st0 with
  | (st1, Some e) => Some (st1, Rejected e)
  | (st1, None) =>
      match flush fuel (set_hooks (delete "ready" (_hooks st1)) st1) with
      | Some st2 => Some (st2, Resolved VUndefined)
      | None => None
      end
  end.

End Bus.

End Lifecycle.

(** ** Values of the host language *)

Module JS.

(** Values of the host language, as far as the registry looks at them.
    Objects and functions are references; [JError] is an [Error] object with
    its message. *)
Inductive jsval :=
| JUndefined
| JNull
| JBool (b : bool)
| JNumber (n : Z)
| JString (s : string)
| JSymbol (id : nat)
| JError (message : string)
| JObject (id : nat)
| JFunction (id : nat).

#[global] Instance jsval_eq_dec : EqDecision jsval.
Proof. solve_decision. Defined.

Definition typeof (v : jsval) : string :=
  match v with
  | JUndefined => "undefined"
  | JNull | JError _ | JObject _ => "object"
  | JBool _ => "boolean"
  | JNumber _ => "number"
  | JString _ => "string"
  | JSymbol _ => "symbol"
  | JFunction _ => "function"
  end.

(** Conversion to boolean, as [!x], [x && y] and [x || y] perform it. *)
Definition truthy (v : jsval) : bool :=
  match v with
  | JUndefined | JNull | JBool false | JString EmptyString => false
  | JNumber n => negb (n =? 0)%Z
  | _ => true
  end.

(** [x || y] *)
Definition or_else (x y : jsval) : jsval := if truthy x then x else y.

(** [x ?? y] *)
Definition nullish (x y : jsval) : jsval :=
  match x with
  | JUndefined | JNull => y
  | _ => x
  end.

End JS.

(** ** The plugin registry: [packages/core/src/registry.ts] and [utils.ts] *)

Module Registry.

Import JS.

(** The type [Inject], line 10, as [Inject.resolve] takes it apart: an array
    of names, or a dictionary whose keys [required] and [optional] may hold
    arrays of names and whose other keys hold [{ required }]. *)
Inductive Inject :=
| InjectArray (names : list string)
| InjectDict (required optional : option (list string)) (rest : list (string * bool)).

(** A value offered as a plugin, with the properties the registry reads from
    it.  For [null] and [undefined] no property is ever read. *)
Record Plugin := {
  self : jsval;
  p_name : jsval;
  p_apply : jsval;
  p_Config : jsval;
  p_schema : jsval;
  p_using : option Inject;
  p_inject : option Inject;
  p_reactive : jsval
}.

(** [isApplicable], lines 6-8. *)
Definition isApplicable (object : Plugin) : bool :=
  truthy (self object)
  && bool_decide (typeof (self object) = "object")
  && bool_decide (typeof (p_apply object) = "function").

(** [Object.fromEntries] and [Object.assign]: a later entry replaces an
    earlier one with the same key. *)
Definition assign (m : gmap string bool) (entries : list (string * bool))
    : gmap string bool :=
  fold_left (fun m e => <[e.1 := e.2]> m) entries m.

(** [Inject.resolve], lines 37-50. *)
Definition Inject_resolve (inject : option Inject) : gmap string bool :=
  match inject with
  | None => ∅
  | Some (InjectArray names) => assign ∅ (map (fun name => (name, true)) names)
  | Some (InjectDict required optional rest) =>
      let rest := assign ∅ rest in
      let rest :=
        match required with
        | Some names => assign rest (map (fun name => (name, true)) names)
        | None => rest
        end in
      match optional with
      | Some names => assign rest (map (fun name => (name, false)) names)
      | None => rest
      end
  end.

(** [Plugin.Meta], lines 86-93; [scopes] holds the ids of the scopes. *)
Record Meta := {
  name : jsval;
  schema : jsval;
  inject : gmap string bool;
  isReactive : jsval;
  scopes : list nat;
  plugin_of : jsval
}.

(** [Plugin.resolve], lines 95-102. *)
Definition Plugin_resolve (plugin : Plugin) : Meta :=
  let name := p_name plugin in
  let name := if decide (name = JString "apply") then JUndefined else name in
  let schema := or_else (p_Config plugin) (p_schema plugin) in
  let inject :=
    Inject_resolve (match p_using plugin with Some i => Some i | None => p_inject plugin end) in
  let isReactive := p_reactive plugin in
  {| name := name; schema := schema; inject := inject; isReactive := isReactive;
     scopes := []; plugin_of := self plugin |}.

(** Modelled from the spec: the [EffectScope] of [scope.ts], of which the
    registry calls the constructor, [cancel] and [start].  A scope has an id,
    its resolved configuration, the plugin it was created from and an
    optional last error; a cancelled scope holds the error it was cancelled
    with and has not been started. *)
Record EffectScope := {
  uid : nat;
  scope_config : jsval;
  scope_plugin : nat;
  scope_error : jsval;
  cancelled : bool;
  started : bool
}.

(** The registry: its fields [_counter] and [_internal] (a [Map] from
    functions, compared by reference, to [Meta]), and what it reaches through
    its context: whether [this.ctx.scope] is active (what [assertActive] of
    [scope.ts] checks), the scopes created so far, and the events handed to
    [emit]. *)
Record t := Reg {
  _counter : nat;
  _internal : gmap nat Meta;
  ctx_active : bool;
  all_scopes : list EffectScope;
  emitted : list (string * jsval)
}.

Definition create : t := Reg 0 ∅ true [] [].

(** The identity of a function: the key of the [Map].  Only functions are
    ever used as keys. *)
Definition ref (f : jsval) : nat :=
  match f with
  | JFunction id => id
  | _ => 0
  end.

(** A name between double quotes, as the message of [resolve] shows it. *)
Definition quoted (s : string) : string :=
  String (Ascii.ascii_of_nat 34) (s +:+ String (Ascii.ascii_of_nat 34) EmptyString).

(** [resolve], lines 143-149.  [inr] is a thrown value. *)
Definition resolve (plugin : Plugin) (assert : bool) : jsval + jsval :=
  if bool_decide (typeof (self plugin) = "function") then inl (self plugin)
  else if isApplicable plugin then inl (p_apply plugin)
  else if assert then
    inr (JError ("invalid plugin, expect function or object with an " +:+ quoted "apply"
                 +:+ " method, received " +:+ typeof (self plugin)))
  else inl JUndefined.

(** [get], lines 151-154. *)
Definition get (plugin : Plugin) (st : t) : option Meta :=
  match resolve plugin false with
  | inl key => if truthy key then _internal st !! ref key else None
  | inr _ => None
  end.

(** [has], lines 156-159. *)
Definition has (plugin : Plugin) (st : t) : bool :=
  match resolve plugin false with
  | inl key => truthy key && bool_decide (is_Some (_internal st !! ref key))
  | inr _ => false
  end.

(** [delete], lines 161-167.  A stored [Meta] is an object, hence truthy. *)
Definition delete (plugin : Plugin) (st : t) : t * option Meta :=
  match get plugin st with
  | None => (st, None)
  | Some meta =>
      match resolve plugin false with
      | inl key =>
          (Reg (_counter st) (base.delete (ref key) (_internal st)) (ctx_active st)
               (all_scopes st) (emitted st), Some meta)
      | inr _ => (st, None)
      end
  end.

(** [size], lines 139-141. *)
Definition size (st : t) : nat := base.size (_internal st).

Section Calls.

(** What calling a function of the host language with one argument does:
    [inl] is the value it returns, [inr] the value it throws. *)
Variable call : nat -> jsval -> jsval + jsval.

(** [schema(config)]: calling what is not a function throws a [TypeError]. *)
Definition apply_schema (schema config : jsval) : jsval + jsval :=
  match schema with
  | JFunction f => call f config
  | _ => inr (JError "schema is not a function")
  end.

(** [resolveConfig] of [utils.ts].  The fresh object of [config ?? {}] is
    [JObject 0]. *)
Definition resolveConfig (plugin : Plugin) (config : jsval) : jsval + jsval :=
  let schema := or_else (p_Config plugin) (p_schema plugin) in
  if truthy schema && negb (bool_decide (p_schema plugin = JBool false)) then
    match apply_schema schema config with
    | inl config => inl (nullish config (JObject 0))
    | inr reason => inr reason
    end
  else inl (nullish config (JObject 0)).

(** [this.context.emit(this.ctx, name, reason)]: the event is handed to the
    bus of the context. *)
Definition emit (name : string) (arg : jsval) (st : t) : t :=
  Reg (_counter st) (_internal st) (ctx_active st) (all_scopes st)
      (emitted st ++ [(name, arg)]).

(** Modelled from the spec: what the constructor of [EffectScope]
    ([scope.ts]) does to the registry entry of its plugin, which holds the
    list of the scopes created from the plugin. *)
Definition add_scope (id : nat) (m : Meta) : Meta :=
  {| name := name m; schema := schema m; inject := inject m;
     isReactive := isReactive m; scopes := scopes m ++ [id];
     plugin_of := plugin_of m |}.

(** Modelled from the spec: the constructor of [EffectScope] ([scope.ts]).
    The new scope takes the next id of the registry (ids increase
    monotonically) and joins the scopes of its plugin. *)
Definition new_scope (config : jsval) (key : nat) (st : t) : t * EffectScope :=
  let id := S (_counter st) in
  let scope :=
    {| uid := id; scope_config := config; scope_plugin := key;
       scope_error := JUndefined; cancelled := false; started := false |} in
  (Reg id (alter (add_scope id) key (_internal st)) (ctx_active st)
       (all_scopes st ++ [scope]) (emitted st), scope).

Definition update_scope (f : EffectScope -> EffectScope) (id : nat) (st : t) : t :=
  Reg (_counter st) (_internal st) (ctx_active st)
      (map (fun s => if decide (uid s = id) then f s else s) (all_scopes st))
      (emitted st).

(** Modelled from the spec: [EffectScope.cancel(error)] ([scope.ts])
    attaches the error and holds the scope cancelled. *)
Definition cancel (error : jsval) (s : EffectScope) : EffectScope :=
  {| uid := uid s; scope_config := scope_config s; scope_plugin := scope_plugin s;
     scope_error := error; cancelled := true; started := started s |}.

(** Modelled from the spec: [EffectScope.start()] ([scope.ts]) starts the
    scope. *)
Definition start (s : EffectScope) : EffectScope :=
  {| uid := uid s; scope_config := scope_config s; scope_plugin := scope_plugin s;
     scope_error := scope_error s; cancelled := cancelled s; started := true |}.

(** [plugin], lines 193-232.  The result is the state the call leaves and
    either the new scope or the value thrown.
    [this.ctx.scope.assertActive()] is in [scope.ts]: it throws when the
    scope of the installing context is not active. *)
Definition plugin (p : Plugin) (config error : jsval) (st : t)
    : t * (EffectScope + jsval) :=
  match resolve p true with
  | inr e => (st, inr e)
  | inl key =>
      if negb (ctx_active st) then (st, inr (JError "inactive context"))
      else
        let '(config, error, st) :=
          if truthy error then (config, error, st)
          else
            match resolveConfig p config with
            | inl config => (config, error, st)
            | inr reason => (JNull, reason, emit "internal/error" reason st)
            end in
        let meta := Plugin_resolve p in
        let st :=
          Reg (_counter st) (<[ref key := meta]> (_internal st)) (ctx_active st)
              (all_scopes st) (emitted st) in
        let '(st, scope) := new_scope config (ref key) st in
        if negb (truthy config)
        then (update_scope (cancel error) (uid scope) st, inl (cancel error scope))
        else (update_scope start (uid scope) st, inl (start scope))
  end.

End Calls.

End Registry.

(** ** Service binding and the effect scope

    [context.ts] and [scope.ts] are not among the sources; their tests
    ([tests/service.spec.ts]) are.  This module follows sections 3, 4.1 and
    4.2 of the specification. *)

Module Service.

Import JS.

Inductive status := Pending | Active | Failed | Disposed.

#[global] Instance status_eq_dec : EqDecision status.
Proof. solve_decision. Defined.

(** Modelled from the spec: [EffectScope] of [scope.ts], as section 3
    describes it, with the dependency spec of its plugin (service name to
    requiredness), the reactivity flag, and what its plugin body does when
    it is invoked: the disposables it registers, in order, and the error it
    throws, if any. *)
Record EffectScope := {
  uid : nat;
  inject : gmap string bool;
  reactive : bool;
  registers : list nat;
  fails : option jsval;
  scope_status : status;
  disposables : list nat;
  error : option jsval
}.

(** What an observer of the kernel sees, in the order in which it happens:
    a disposable of a scope runs, a scope is cancelled, a service value
    becomes readable, a plugin body is invoked with the values of its
    dependencies, an error is reported. *)
Inductive event :=
| Ran (scope : nat) (disposable : nat)
| Cancelled (scope : nat)
| Written (name : string) (v : jsval)
| Activated (scope : nat) (seen : list (string * jsval))
| Reported (e : jsval).

(** Modelled from the spec: the state behind [Context] ([context.ts]): the
    service table shared by all contexts, the scopes in the order of their
    creation, and the observations so far. *)
Record t := Kernel {
  store : gmap string jsval;
  scopes : list EffectScope;
  log : list event
}.

(** Modelled from the spec: the service getter of [Context]
    ([context.ts]); a name never written reads [undefined]. *)
Definition get (name : string) (st : t) : jsval :=
  default JUndefined (store st !! name).

(** Modelled from the spec: when a service value satisfies a dependency
    (the check is in [scope.ts]).  Section 3 asks for a value that is not
    [undefined]; the last step of the test 'dependency update' shows that
    [null] does not satisfy a dependency either. *)
Definition available (v : jsval) : bool :=
  match v with
  | JUndefined | JNull => false
  | _ => true
  end.

(** Modelled from the spec: satisfiability of a scope ([scope.ts]): every
    required name has a value in the service table. *)
Definition ready (st : gmap string jsval) (s : EffectScope) : bool :=
  forallb (fun e => implb e.2 (available (default JUndefined (st !! e.1))))
          (map_to_list (inject s)).

(** Modelled from the spec: which scopes a change of [name] re-evaluates
    ([scope.ts]): those that require it, and those that watch it optionally
    if they are reactive; a disposed scope is never re-evaluated. *)
Definition watches (name : string) (s : EffectScope) : bool :=
  negb (bool_decide (scope_status s = Disposed)) &&
  match inject s !! name with
  | Some true => true
  | Some false => reactive s
  | None => false
  end.

Definition with_status (s : EffectScope) (st : status) (ds : list nat)
    (err : option jsval) : EffectScope :=
  {| uid := uid s; inject := inject s; reactive := reactive s;
     registers := registers s; fails := fails s;
     scope_status := st; disposables := ds; error := err |}.

(** Modelled from the spec: cancelling a scope ([scope.ts]) runs its
    disposables in the reverse of their registration order and leaves it
    pending (section 4.2, active to pending). *)
Definition cancel (s : EffectScope) : EffectScope * list event :=
  (with_status s Pending [] (error s),
   map (Ran (uid s)) (rev (disposables s)) ++ [Cancelled (uid s)]).

(** Modelled from the spec: starting a scope ([scope.ts]) invokes the
    plugin body when the scope is satisfiable; the scope becomes active, or
    failed with the error reported when the body throws (section 4.2,
    pending to active). *)
Definition start (st : gmap string jsval) (s : EffectScope) : EffectScope * list event :=
  if ready st s then
    let seen := map (fun e => (e.1, default JUndefined (st !! e.1))) (map_to_list (inject s)) in
    match fails s with
    | None => (with_status s Active (registers s) None, [Activated (uid s) seen])
    | Some e => (with_status s Failed (registers s) (Some e),
                 [Activated (uid s) seen; Reported e])
    end
  else (s, []).

(** One pass over the scopes: the watching ones are transformed by [f], and
    what they let observe is collected in order. *)
Fixpoint sweep (f : EffectScope -> EffectScope * list event) (name : string)
    (ss : list EffectScope) : list EffectScope * list event :=
  match ss with
  | [] => ([], [])
  | s :: rest =>
      let '(rest', es') := sweep f name rest in
      if watches name s
      then let '(s', es) := f s in (s' :: rest', es ++ es')
      else (s :: rest', es')
  end.

(** Modelled from the spec: the service setter of [Context] ([context.ts],
    section 4.1).  A reference-equal value is a no-op; otherwise the watching
    scopes are cancelled, then the value is written, then the watching scopes
    are started again if they are satisfiable.  As section 8 says and the
    test 'dependency update' shows, a scope is cancelled also when the new
    value still satisfies it. *)
Definition set (name : string) (v : jsval) (st : t) : t :=
  if decide (get name st = v) then st
  else
    let '(ss1, es1) := sweep cancel name (scopes st) in
    let store' := <[name := v]> (store st) in
    let '(ss2, es2) := sweep (start store') name ss1 in
    Kernel store' ss2 (log st ++ es1 ++ [Written name v] ++ es2).

(** Modelled from the spec: installing a plugin ([Context.plugin],
    [context.ts]) creates a pending scope and starts it if it is
    satisfiable. *)
Definition install (id : nat) (deps : gmap string bool) (is_reactive : bool)
    (body : list nat) (throws : option jsval) (st : t) : t :=
  let s := {| uid := id; inject := deps; reactive := is_reactive; registers := body;
              fails := throws; scope_status := Pending; disposables := []; error := None |} in
  let '(s', es) := start (store st) s in
  Kernel (store st) (scopes st ++ [s']) (log st ++ es).

End Service.

(** * Properties of the event bus *)

Module LifecycleFacts.

Import Lifecycle.

Arguments Lifecycle.invoke : simpl never.
Arguments Lifecycle.awaited : simpl never.
Arguments Lifecycle.settle_task : simpl never.
Arguments Lifecycle.on : simpl never.
Arguments Lifecycle.off : simpl never.

(** Membership in a list built with [::] and [++]. *)
Ltac list_mem :=
  repeat first [rewrite elem_of_app in * | rewrite elem_of_cons in *];
  intuition (auto; congruence).

(** The listeners called so far, in order. *)
Definition invoked (tr : list event) : list lid :=
  omap (fun e => match e with Invoked l _ _ => Some l | Settled _ => None end) tr.

(** The number of awaited results that have settled so far. *)
Definition settlements (tr : list event) : nat :=
  length (omap (fun e => match e with Settled r => Some r | Invoked _ _ _ => None end) tr).

(** What awaiting a value yields, whatever the bus. *)
Fixpoint settle_of (v : value) : settled :=
  match v with
  | VPromise _ true payload => settle_of payload
  | VPromise _ false reason => Rejected reason
  | VPending _ => Pending
  | _ => Resolved v
  end.

(** What awaiting a value leaves in the trace: nothing when it stays
    pending. *)
Definition settling (v : value) : list event :=
  match settle_of v with
  | Pending => []
  | r => [Settled r]
  end.

Lemma pending_settle_of v : pending v = true <-> settle_of v = Pending.
Proof.
  induction v as [| | | | | |later f payload IH|later]; cbn; try (split; discriminate).
  - destruct f; [exact IH|split; discriminate].
  - split; reflexivity.
Qed.

Lemma settling_settles v :
  pending v = false -> settling v = [Settled (settle_of v)].
Proof.
  intros H. unfold settling. destruct (settle_of v) eqn:E; try reflexivity.
  apply pending_settle_of in E. congruence.
Qed.

Section Facts.

Variable state_of : ctx -> scope.
Variable matches : ctx -> option session -> bool.
Variable bodies : lid -> option session -> list value -> body.

Local Abbreviation on := (Lifecycle.on state_of).
Local Abbreviation off := (Lifecycle.off).
Local Abbreviation run_cmds := (Lifecycle.run_cmds state_of).
Local Abbreviation invoke := (Lifecycle.invoke state_of bodies).
Local Abbreviation await := (Lifecycle.await state_of).
Local Abbreviation awaited := (Lifecycle.awaited state_of).
Local Abbreviation settle_task := (Lifecycle.settle_task state_of).
Local Abbreviation getHooks := (Lifecycle.getHooks matches).
Local Abbreviation parallel := (Lifecycle.parallel state_of matches bodies).
Local Abbreviation parallel_loop := (Lifecycle.parallel_loop state_of bodies).
Local Abbreviation serial := (Lifecycle.serial state_of matches bodies).
Local Abbreviation serial_loop := (Lifecycle.serial_loop state_of bodies).
Local Abbreviation bail := (Lifecycle.bail state_of matches bodies).
Local Abbreviation bail_loop := (Lifecycle.bail_loop state_of bodies).
Local Abbreviation chain := (Lifecycle.chain state_of matches bodies).
Local Abbreviation chain_loop := (Lifecycle.chain_loop state_of bodies).
Local Abbreviation waterfall := (Lifecycle.waterfall state_of matches bodies).
Local Abbreviation waterfall_loop := (Lifecycle.waterfall_loop state_of bodies).
Local Abbreviation run_task := (Lifecycle.run_task state_of bodies).
Local Abbreviation run_tasks := (Lifecycle.run_tasks state_of bodies).
Local Abbreviation flush := (Lifecycle.flush state_of bodies).
Local Abbreviation start_loop := (Lifecycle.start_loop state_of bodies).
Local Abbreviation start := (Lifecycle.start state_of matches bodies).

(** *** What the bus operations leave alone *)

Lemma on_trace caller name l p st : trace (on caller name l p st).1 = trace st.
Proof.
  unfold Lifecycle.on.
  destruct (bool_decide (name = "ready") && isActive st); [reflexivity|].
  destruct (decide (name = "dispose")); [reflexivity|].
  simpl. destruct (maxListeners (config st)) as [max|]; [|reflexivity].
  destruct (max <=? _)%Z; reflexivity.
Qed.

Lemma off_trace caller name l st : trace (off caller name l st).1 = trace st.
Proof. unfold Lifecycle.off. destruct (findIndex _ _ _); reflexivity. Qed.

Lemma run_cmds_trace cs st : trace (run_cmds cs st) = trace st.
Proof.
  revert st. induction cs as [|c cs IH]; intros st; [reflexivity|].
  simpl. rewrite IH. destruct c; simpl; [apply on_trace | apply off_trace].
Qed.

Lemma invoke_trace l sess args st :
  trace (invoke l sess args st).1 = trace st ++ [Invoked l sess args].
Proof. unfold Lifecycle.invoke. simpl. now rewrite run_cmds_trace. Qed.

Lemma invoke_result l sess args st :
  (invoke l sess args st).2 = result (bodies l sess args).
Proof. reflexivity. Qed.

Lemma await_trace v st : trace (await v st).1 = trace st.
Proof.
  revert st.
  induction v as [| | | | | |later f payload IH|later]; intros st; try reflexivity.
  - simpl. destruct f.
    + rewrite IH. apply run_cmds_trace.
    + simpl. apply run_cmds_trace.
  - simpl. apply run_cmds_trace.
Qed.

Lemma await_settle v st : (await v st).2 = settle_of v.
Proof.
  revert st.
  induction v as [| | | | | |later f payload IH|later]; intros st; try reflexivity.
  simpl. destruct f; [apply IH | reflexivity].
Qed.

Lemma awaited_trace v st : trace (awaited v st).1 = trace st ++ settling v.
Proof.
  unfold Lifecycle.awaited, settling. pose proof (await_trace v st) as Ht.
  pose proof (await_settle v st) as Hs.
  destruct (await v st) as [st1 r]. simpl in *. rewrite <- Hs.
  destruct r; simpl; rewrite Ht; [reflexivity|reflexivity|now rewrite app_nil_r].
Qed.

Lemma awaited_settle v st : (awaited v st).2 = settle_of v.
Proof.
  unfold Lifecycle.awaited. pose proof (await_settle v st) as Hs.
  destruct (await v st) as [st1 r]. simpl in Hs. now destruct r.
Qed.

Lemma settle_task_trace v st : trace (settle_task v st) = trace st ++ settling v.
Proof.
  unfold Lifecycle.settle_task. pose proof (awaited_trace v st) as Ht.
  destruct (awaited v st) as [st1 [r|e|]]; exact Ht.
Qed.

Lemma invoked_app tr1 tr2 : invoked (tr1 ++ tr2) = invoked tr1 ++ invoked tr2.
Proof. apply omap_app. Qed.

Lemma invoked_settling v : invoked (settling v) = [].
Proof. unfold settling. now destruct (settle_of v). Qed.

Lemma settlements_app tr1 tr2 :
  settlements (tr1 ++ tr2) = settlements tr1 + settlements tr2.
Proof. unfold settlements. now rewrite omap_app, length_app. Qed.

(** *** Special event names and the listener limit *)

(** C8: registering a listener for ['dispose'] puts it at the end (with
    [prepend], at the front) of the disposables of the calling scope and
    leaves everything else as it was, the hook table included; and no call of
    [on], whatever the event name, touches the entry of ['dispose'] in the
    hook table. *)
Theorem on_dispose_goes_to_disposables :
  (forall caller listener prepend st,
     let st' := (on caller "dispose" listener prepend st).1 in
     _hooks st' = _hooks st
     /\ disposables_of (state_of caller) st'
        = (if prepend
           then DListener listener :: disposables_of (state_of caller) st
           else disposables_of (state_of caller) st ++ [DListener listener])
     /\ (forall s, s <> state_of caller -> disposables_of s st' = disposables_of s st)
     /\ _tasks st' = _tasks st /\ warnings st' = warnings st
     /\ trace st' = trace st /\ isActive st' = isActive st)
  /\ (forall caller name listener prepend st,
        _hooks (on caller name listener prepend st).1 !! "dispose"
        = _hooks st !! "dispose").
Proof.
  split.
  - intros caller listener prepend st. unfold Lifecycle.on. simpl.
    repeat split; try reflexivity.
    + unfold disposables_of at 1. simpl. rewrite lookup_insert_eq. simpl.
      destruct prepend; reflexivity.
    + intros s Hs. unfold disposables_of. simpl.
      rewrite lookup_insert_ne by congruence. reflexivity.
  - intros caller name listener prepend st. unfold Lifecycle.on.
    destruct (bool_decide (name = "ready") && isActive st); [reflexivity|].
    destruct (decide (name = "dispose")) as [->|Hne]; [reflexivity|].
    simpl. rewrite lookup_insert_ne by congruence.
    destruct (maxListeners (config st)) as [max|]; [|reflexivity].
    destruct (max <=? _)%Z; reflexivity.
Qed.

(** The snapshot of a hook list with one more hook. *)
Lemma filter_add {A} (f : A -> bool) (prepend : bool) (x : A) (l : list A) :
  f x = true -> List.filter f (add prepend x l) = add prepend x (List.filter f l).
Proof.
  intros Hx. destruct prepend; simpl.
  - now rewrite Hx.
  - rewrite List.filter_app. simpl. now rewrite Hx.
Qed.

Lemma elem_of_add {A} (prepend : bool) (x : A) (l : list A) : x ∈ add prepend x l.
Proof. destruct prepend; simpl; list_mem. Qed.

(** Every callback of the list is called by the loop of [parallel] up to and
    including the first one that throws. *)
Lemma parallel_loop_invokes cbs : forall sess args tasks st l,
  l ∈ cbs ->
  (forall cb, cb ∈ cbs -> cb <> l -> exists v, result (bodies cb sess args) = Return v) ->
  Invoked l sess args ∈ trace (parallel_loop cbs sess args tasks st).1.
Proof.
  induction cbs as [|cb rest IH]; intros sess args tasks st l Hmem Hret.
  - inversion Hmem.
  - cbn [Lifecycle.parallel_loop].
    pose proof (invoke_trace cb sess args st) as Ht.
    pose proof (invoke_result cb sess args st) as Hr.
    destruct (invoke cb sess args st) as [st1 r]. simpl in Ht, Hr.
    destruct (decide (cb = l)) as [->|Hne].
    + assert (Hl : Invoked l sess args ∈ trace st1) by (rewrite Ht; list_mem).
      clear Ht IH Hret Hr Hmem. destruct r as [v|e]; [|exact Hl].
      revert st1 Hl. generalize (tasks ++ [v]). clear tasks.
      induction rest as [|cb' rest IH]; intros tasks st1 Hl; [exact Hl|].
      cbn [Lifecycle.parallel_loop].
      pose proof (invoke_trace cb' sess args st1) as Ht.
      destruct (invoke cb' sess args st1) as [st2 [v'|e']]; simpl in Ht.
      * apply IH. rewrite Ht. list_mem.
      * simpl. rewrite Ht. list_mem.
    + destruct (Hret cb) as [v Hv]; [list_mem|exact Hne|].
      rewrite Hv in Hr. subst r. apply IH; [list_mem|].
      intros cb' Hcb'. apply Hret. list_mem.
Qed.

Lemma fold_settle_trace_incl tasks : forall st e,
  e ∈ trace st -> e ∈ trace (fold_left (fun st v => settle_task v st) tasks st).
Proof.
  induction tasks as [|v tasks IH]; intros st e He; [exact He|].
  simpl. apply IH. rewrite settle_task_trace. list_mem.
Qed.

(** C9, as the code has it: for an event name that [on] does not treat
    specially (['dispose'], and ['ready'] while the bus is active), a hook
    list that already holds the configured maximum makes [on] log a warning
    and register the listener all the same; the listener is in the hook list
    afterwards, a later dispatch finds it whenever its context matches, and
    a later [parallel] whose other callbacks return calls it. *)
Theorem on_beyond_max_listeners caller name listener prepend st max :
  name <> "dispose" ->
  ~ (name = "ready" /\ isActive st = true) ->
  maxListeners (config st) = Some max ->
  (max <= Z.of_nat (length (hooks_of name st)))%Z ->
  let st' := (on caller name listener prepend st).1 in
  warnings st' = warnings st ++ [WMaxListeners max name]
  /\ hooks_of name st' = add prepend (caller, listener) (hooks_of name st)
  /\ (caller, listener) ∈ hooks_of name st'
  /\ (forall sess, matches caller sess = true ->
        listener ∈ getHooks name sess st'
        /\ forall args,
             (forall cb, cb ∈ getHooks name sess st' -> cb <> listener ->
                exists v, result (bodies cb sess args) = Return v) ->
             Invoked listener sess args ∈ trace (parallel sess name args st').1).
Proof.
  intros Hdispose Hready Hmax Hlen st'.
  assert (Hst' : st' =
    let st1 := warn (WMaxListeners max name) st in
    let st2 := set_hooks (<[name := add prepend (caller, listener) (hooks_of name st)]>
                            (_hooks st1)) st1 in
    set_disposables
      (<[state_of caller := disposables_of (state_of caller) st2 ++ [DUnhook name listener]]>
         (disposables st2)) st2).
  { subst st'. unfold Lifecycle.on.
    destruct (bool_decide (name = "ready") && isActive st) eqn:Hb.
    - apply andb_true_iff in Hb as [Hn Ha]. apply bool_decide_eq_true in Hn.
      exfalso. apply Hready. now split.
    - destruct (decide (name = "dispose")); [contradiction|].
      rewrite Hmax. apply Z.leb_le in Hlen. rewrite Hlen. reflexivity. }
  assert (Hhooks : hooks_of name st' = add prepend (caller, listener) (hooks_of name st)).
  { rewrite Hst'. unfold hooks_of. simpl. now rewrite lookup_insert_eq. }
  split; [now rewrite Hst'|]. split; [exact Hhooks|].
  split; [rewrite Hhooks; apply elem_of_add|].
  intros sess Hm.
  assert (Hmem : listener ∈ getHooks name sess st').
  { unfold Lifecycle.getHooks. rewrite Hhooks.
    rewrite (filter_add (fun h => matches h.1 sess)) by exact Hm.
    apply (list_elem_of_fmap_2 snd _ (caller, listener)), elem_of_add. }
  split; [exact Hmem|]. intros args Hret.
  unfold Lifecycle.parallel.
  pose proof (parallel_loop_invokes (getHooks name sess st') sess args [] st'
                listener Hmem Hret) as Hinv.
  destruct (parallel_loop _ _ _ _ _) as [st1 [tasks|e]]; simpl in *.
  - now apply fold_settle_trace_incl.
  - exact Hinv.
Qed.

(** *** Serial and bail dispatch *)

(** A result that stops [serial] and [bail]. *)
Definition bailed (v : value) : Prop :=
  v <> VNull /\ v <> VBool false /\ v <> VUndefined.

Lemma isBailed_true v : isBailed v = true <-> bailed v.
Proof.
  unfold bailed. split.
  - intros H. repeat split; intros ->; discriminate.
  - intros (Hn & Hf & Hu). destruct v as [| |[]| | | | |]; try reflexivity; congruence.
Qed.

Lemma isBailed_false v :
  isBailed v = false <-> v = VNull \/ v = VBool false \/ v = VUndefined.
Proof.
  split.
  - destruct v as [| |[]| | | | |]; try discriminate; auto.
  - intros [->|[->| ->]]; reflexivity.
Qed.

(** The callback returns a value that does not stop [bail]. *)
Definition passes (sess : option session) (args : list value) (h : lid) : Prop :=
  exists u, result (bodies h sess args) = Return u /\ ~ bailed u.

(** The callback returns a value, or a promise fulfilled with a value, that
    does not stop [serial]. *)
Definition passes_awaited (sess : option session) (args : list value) (h : lid) : Prop :=
  exists u r, result (bodies h sess args) = Return u
              /\ settle_of u = Resolved r /\ ~ bailed r.

Lemma invoke_eq l sess args st :
  invoke l sess args st = ((invoke l sess args st).1, result (bodies l sess args)).
Proof. reflexivity. Qed.

Lemma awaited_eq v st : awaited v st = ((awaited v st).1, settle_of v).
Proof. rewrite <- (awaited_settle v st). now destruct (awaited v st). Qed.

Lemma not_bailed v : ~ bailed v -> isBailed v = false.
Proof.
  intros H. destruct (isBailed v) eqn:E; [|reflexivity].
  apply isBailed_true in E. contradiction.
Qed.

Lemma bail_loop_hit sess args pre : forall st cb post v,
  Forall (passes sess args) pre ->
  result (bodies cb sess args) = Return v -> bailed v ->
  (bail_loop (pre ++ cb :: post) sess args st).2 = Return v
  /\ invoked (trace (bail_loop (pre ++ cb :: post) sess args st).1)
     = invoked (trace st) ++ pre ++ [cb].
Proof.
  induction pre as [|h pre IH]; intros st cb post v Hpre Hcb Hv.
  - cbn [app Lifecycle.bail_loop]. rewrite invoke_eq, Hcb.
    apply isBailed_true in Hv. rewrite Hv. cbn [fst snd].
    split; [reflexivity|]. rewrite invoke_trace, invoked_app. reflexivity.
  - inversion Hpre as [|? ? (u & Hu & Hnb) Hpre']; subst.
    cbn [app Lifecycle.bail_loop]. rewrite invoke_eq, Hu, (not_bailed u Hnb).
    destruct (IH (invoke h sess args st).1 cb post v Hpre' Hcb Hv) as [Hr Ht].
    split; [exact Hr|]. rewrite Ht, invoke_trace, invoked_app.
    cbn. now rewrite <- app_assoc.
Qed.

Lemma bail_loop_miss sess args cbs : forall st,
  Forall (passes sess args) cbs ->
  (bail_loop cbs sess args st).2 = Return VUndefined
  /\ invoked (trace (bail_loop cbs sess args st).1) = invoked (trace st) ++ cbs.
Proof.
  induction cbs as [|h cbs IH]; intros st Hall.
  - cbn. now rewrite app_nil_r.
  - inversion Hall as [|? ? (u & Hu & Hnb) Hall']; subst.
    cbn [Lifecycle.bail_loop]. rewrite invoke_eq, Hu, (not_bailed u Hnb).
    destruct (IH (invoke h sess args st).1 Hall') as [Hr Ht].
    split; [exact Hr|]. rewrite Ht, invoke_trace, invoked_app.
    cbn. now rewrite <- app_assoc.
Qed.

Lemma serial_loop_hit sess args pre : forall st cb post u v,
  Forall (passes_awaited sess args) pre ->
  result (bodies cb sess args) = Return u -> settle_of u = Resolved v -> bailed v ->
  (serial_loop (pre ++ cb :: post) sess args st).2 = Resolved v
  /\ invoked (trace (serial_loop (pre ++ cb :: post) sess args st).1)
     = invoked (trace st) ++ pre ++ [cb].
Proof.
  induction pre as [|h pre IH]; intros st cb post u v Hpre Hcb Hu Hv.
  - cbn [app Lifecycle.serial_loop]. rewrite invoke_eq, Hcb, awaited_eq, Hu.
    apply isBailed_true in Hv. rewrite Hv. cbn [fst snd].
    split; [reflexivity|].
    rewrite awaited_trace, invoke_trace, !invoked_app, invoked_settling.
    cbn. now rewrite app_nil_r.
  - inversion Hpre as [|? ? (w & r & Hw & Hr & Hnb) Hpre']; subst.
    cbn [app Lifecycle.serial_loop].
    rewrite invoke_eq, Hw, awaited_eq, Hr, (not_bailed r Hnb).
    destruct (IH (awaited w (invoke h sess args st).1).1 cb post u v Hpre' Hcb Hu Hv)
      as [Hres Ht].
    split; [exact Hres|].
    rewrite Ht, awaited_trace, invoke_trace, !invoked_app, invoked_settling.
    cbn. rewrite app_nil_r. now rewrite <- app_assoc.
Qed.

Lemma serial_loop_miss sess args cbs : forall st,
  Forall (passes_awaited sess args) cbs ->
  (serial_loop cbs sess args st).2 = Resolved VUndefined
  /\ invoked (trace (serial_loop cbs sess args st).1) = invoked (trace st) ++ cbs.
Proof.
  induction cbs as [|h cbs IH]; intros st Hall.
  - cbn. now rewrite app_nil_r.
  - inversion Hall as [|? ? (w & r & Hw & Hr & Hnb) Hall']; subst.
    cbn [Lifecycle.serial_loop].
    rewrite invoke_eq, Hw, awaited_eq, Hr, (not_bailed r Hnb).
    destruct (IH (awaited w (invoke h sess args st).1).1 Hall') as [Hres Ht].
    split; [exact Hres|].
    rewrite Ht, awaited_trace, invoke_trace, !invoked_app, invoked_settling.
    cbn. rewrite app_nil_r. now rewrite <- app_assoc.
Qed.

(** C2: [bail] and [serial] call the hooks of the event in the order of the
    hook list and return the first result that is neither [null] nor [false]
    nor [undefined]; the hooks after the one that produced it are not called;
    when every hook returns such a non-result, every hook is called and the
    dispatch returns [undefined].  For [serial] the result of a hook is what
    awaiting its return value yields. *)
Theorem serial_bail_return_first_result sess name args st :
  (forall pre cb post v,
     getHooks name sess st = pre ++ cb :: post ->
     Forall (passes sess args) pre ->
     result (bodies cb sess args) = Return v -> bailed v ->
     (bail sess name args st).2 = Return v
     /\ invoked (trace (bail sess name args st).1) = invoked (trace st) ++ pre ++ [cb])
  /\ (Forall (passes sess args) (getHooks name sess st) ->
      (bail sess name args st).2 = Return VUndefined
      /\ invoked (trace (bail sess name args st).1)
         = invoked (trace st) ++ getHooks name sess st)
  /\ (forall pre cb post u v,
        getHooks name sess st = pre ++ cb :: post ->
        Forall (passes_awaited sess args) pre ->
        result (bodies cb sess args) = Return u -> settle_of u = Resolved v -> bailed v ->
        (serial sess name args st).2 = Resolved v
        /\ invoked (trace (serial sess name args st).1) = invoked (trace st) ++ pre ++ [cb])
  /\ (Forall (passes_awaited sess args) (getHooks name sess st) ->
      (serial sess name args st).2 = Resolved VUndefined
      /\ invoked (trace (serial sess name args st).1)
         = invoked (trace st) ++ getHooks name sess st).
Proof.
  unfold Lifecycle.bail, Lifecycle.serial. split; [|split; [|split]].
  - intros pre cb post v H Hpre Hcb Hv. rewrite H. now apply bail_loop_hit.
  - intros Hall. now apply bail_loop_miss.
  - intros pre cb post u v H Hpre Hcb Hu Hv. rewrite H.
    now apply (serial_loop_hit sess args pre st cb post u v).
  - intros Hall. now apply serial_loop_miss.
Qed.

(** *** What only grows *)

(** The trace and the warnings of [st'] extend those of [st]. *)
Definition extends (st st' : t) : Prop :=
  (forall e, e ∈ trace st -> e ∈ trace st')
  /\ (forall w, w ∈ warnings st -> w ∈ warnings st').

(** In addition, no task has left the queue. *)
Definition keeps_tasks (st st' : t) : Prop :=
  extends st st' /\ (forall k, k ∈ _tasks st -> k ∈ _tasks st').

Lemma extends_refl st : extends st st.
Proof. split; auto. Qed.

Lemma extends_trans st1 st2 st3 : extends st1 st2 -> extends st2 st3 -> extends st1 st3.
Proof. intros [? ?] [? ?]. split; auto. Qed.

Lemma keeps_tasks_refl st : keeps_tasks st st.
Proof. split; [apply extends_refl|auto]. Qed.

Lemma keeps_tasks_trans st1 st2 st3 :
  keeps_tasks st1 st2 -> keeps_tasks st2 st3 -> keeps_tasks st1 st3.
Proof. intros [? ?] [? ?]. split; [eapply extends_trans; eauto|auto]. Qed.

Lemma on_keeps caller name l p st : keeps_tasks st (on caller name l p st).1.
Proof.
  unfold Lifecycle.on.
  destruct (bool_decide (name = "ready") && isActive st).
  { repeat split; simpl; auto. intros k Hk. list_mem. }
  destruct (decide (name = "dispose")); [repeat split; simpl; auto|].
  simpl. destruct (maxListeners (config st)) as [max|]; [|repeat split; simpl; auto].
  destruct (max <=? _)%Z; repeat split; simpl; auto.
  intros w Hw. list_mem.
Qed.

Lemma off_keeps caller name l st : keeps_tasks st (off caller name l st).1.
Proof. unfold Lifecycle.off. destruct (findIndex _ _ _); repeat split; simpl; auto. Qed.

Lemma run_cmds_keeps cs : forall st, keeps_tasks st (run_cmds cs st).
Proof.
  induction cs as [|c cs IH]; intros st; [apply keeps_tasks_refl|].
  simpl. eapply keeps_tasks_trans; [|apply IH].
  destruct c; [apply on_keeps | apply off_keeps].
Qed.

Lemma record_keeps e st : keeps_tasks st (record e st).
Proof. repeat split; simpl; auto. intros e' He'. list_mem. Qed.

Lemma warn_keeps w st : keeps_tasks st (warn w st).
Proof. repeat split; simpl; auto. intros w' Hw'. list_mem. Qed.


Lemma invoke_keeps l sess args st : keeps_tasks st (invoke l sess args st).1.
Proof.
  unfold Lifecycle.invoke. simpl.
  eapply keeps_tasks_trans; [apply record_keeps | apply run_cmds_keeps].
Qed.

Lemma await_keeps v : forall st, keeps_tasks st (await v st).1.
Proof.
  induction v as [| | | | | |later f payload IH|later]; intros st;
    try apply keeps_tasks_refl.
  - simpl. destruct f.
    + eapply keeps_tasks_trans; [apply run_cmds_keeps | apply IH].
    + apply run_cmds_keeps.
  - apply run_cmds_keeps.
Qed.

Lemma awaited_keeps v st : keeps_tasks st (awaited v st).1.
Proof.
  unfold Lifecycle.awaited. pose proof (await_keeps v st) as H.
  destruct (await v st) as [st1 r]. simpl in *.
  destruct r; [| |exact H];
    (eapply keeps_tasks_trans; [exact H | apply record_keeps]).
Qed.

Lemma settle_task_keeps v st : keeps_tasks st (settle_task v st).
Proof.
  unfold Lifecycle.settle_task. pose proof (awaited_keeps v st) as H.
  destruct (awaited v st) as [st1 [r|e|]]; simpl in *; [exact H| |exact H].
  eapply keeps_tasks_trans; [exact H | apply warn_keeps].
Qed.

Lemma settle_task_warns v e st :
  settle_of v = Rejected e -> WError e ∈ warnings (settle_task v st).
Proof.
  intros Hv. unfold Lifecycle.settle_task. rewrite awaited_eq, Hv. simpl. list_mem.
Qed.

Lemma fold_settle_keeps tasks : forall st,
  keeps_tasks st (fold_left (fun st v => settle_task v st) tasks st).
Proof.
  induction tasks as [|v tasks IH]; intros st; [apply keeps_tasks_refl|].
  simpl. eapply keeps_tasks_trans; [apply settle_task_keeps | apply IH].
Qed.

Lemma fold_settle_warns tasks : forall st v e,
  v ∈ tasks -> settle_of v = Rejected e ->
  WError e ∈ warnings (fold_left (fun st v => settle_task v st) tasks st).
Proof.
  induction tasks as [|v' tasks IH]; intros st v e Hv He; [inversion Hv|].
  simpl. apply elem_of_cons in Hv as [->|Hv].
  - apply (fold_settle_keeps tasks). now apply settle_task_warns.
  - now apply (IH _ v e).
Qed.

Lemma fold_settle_trace tasks : forall st,
  trace (fold_left (fun st v => settle_task v st) tasks st)
  = trace st ++ (tasks ≫= settling).
Proof.
  induction tasks as [|v tasks IH]; intros st; [now rewrite app_nil_r|].
  cbn [fold_left]. rewrite IH, settle_task_trace, bind_cons. now rewrite <- app_assoc.
Qed.

(** *** Parallel dispatch *)

(** The value a callback returns (the thrown one, if it throws). *)
Definition returned (sess : option session) (args : list value) (h : lid) : value :=
  match result (bodies h sess args) with
  | Return v => v
  | Throw e => e
  end.

Definition returns (sess : option session) (args : list value) (h : lid) : Prop :=
  exists v, result (bodies h sess args) = Return v.

Lemma returned_Return sess args h v :
  result (bodies h sess args) = Return v -> returned sess args h = v.
Proof. unfold returned. now intros ->. Qed.

Lemma parallel_loop_returns sess args cbs : forall tasks st,
  Forall (returns sess args) cbs ->
  (parallel_loop cbs sess args tasks st).2 = inl (tasks ++ map (returned sess args) cbs)
  /\ trace (parallel_loop cbs sess args tasks st).1
     = trace st ++ map (fun h => Invoked h sess args) cbs.
Proof.
  induction cbs as [|h cbs IH]; intros tasks st Hall.
  - cbn. now rewrite !app_nil_r.
  - inversion Hall as [|? ? [v Hv] Hall']; subst.
    cbn [Lifecycle.parallel_loop]. rewrite invoke_eq, Hv.
    destruct (IH (tasks ++ [v]) (invoke h sess args st).1 Hall') as [Hr Ht].
    rewrite Hr, Ht, invoke_trace. cbn [map].
    rewrite (returned_Return sess args h v Hv). now rewrite <- !app_assoc.
Qed.

Lemma invoked_Invoked sess args cbs :
  invoked (map (fun h => Invoked h sess args) cbs) = cbs.
Proof.
  induction cbs as [|h cbs IH]; [reflexivity|].
  unfold invoked in *. cbn. now rewrite IH.
Qed.

Lemma invoked_Settled (vs : list value) : invoked (vs ≫= settling) = [].
Proof.
  induction vs as [|v vs IH]; [reflexivity|].
  now rewrite bind_cons, invoked_app, invoked_settling, IH.
Qed.

Lemma settlements_Invoked sess args cbs :
  settlements (map (fun h => Invoked h sess args) cbs) = 0.
Proof. induction cbs as [|h cbs IH]; [reflexivity|]. exact IH. Qed.

Lemma settlements_Settled (vs : list value) :
  Forall (fun v => pending v = false) vs ->
  settlements (vs ≫= settling) = length vs.
Proof.
  induction vs as [|v vs IH]; intros Hall; [reflexivity|].
  inversion Hall as [|? ? Hv Hall']; subst.
  rewrite bind_cons, settlements_app, IH, (settling_settles v Hv) by exact Hall'.
  reflexivity.
Qed.

(** The values that the hooks return, all of which settle. *)
Definition all_settle (sess : option session) (args : list value) (cbs : list lid) : Prop :=
  Forall (fun h => pending (returned sess args h) = false) cbs.

Lemma existsb_pending vs :
  existsb pending vs = false <-> Forall (fun v => pending v = false) vs.
Proof.
  induction vs as [|v vs IH]; cbn; [split; [constructor|reflexivity]|].
  rewrite orb_false_iff, IH. split.
  - intros [? ?]. now constructor.
  - intros H. inversion H. now split.
Qed.

(** When no callback throws on being called, [parallel] calls every hook of
    the snapshot and logs the reason of every rejection as a warning; it
    resolves when every returned promise has settled, and only then. *)
Lemma parallel_calls_all sess name args st :
  Forall (returns sess args) (getHooks name sess st) ->
  let st' := (parallel sess name args st).1 in
  (parallel sess name args st).2
  = (if existsb pending (map (returned sess args) (getHooks name sess st))
     then Pending else Resolved VUndefined)
  /\ trace st'
     = trace st ++ map (fun h => Invoked h sess args) (getHooks name sess st)
       ++ (map (returned sess args) (getHooks name sess st) ≫= settling)
  /\ invoked (trace st') = invoked (trace st) ++ getHooks name sess st
  /\ (forall h e, h ∈ getHooks name sess st ->
        settle_of (returned sess args h) = Rejected e -> WError e ∈ warnings st').
Proof.
  intros Hall. unfold Lifecycle.parallel.
  destruct (parallel_loop_returns sess args _ [] st Hall) as [Hr Ht].
  destruct (parallel_loop _ _ _ _ _) as [st1 r]. simpl in Hr, Ht. subst r.
  cbn [fst snd app]. split; [reflexivity|].
  rewrite fold_settle_trace, Ht. split; [now rewrite <- app_assoc|]. split.
  - now rewrite !invoked_app, invoked_Invoked, invoked_Settled, app_nil_r.
  - intros h e Hh He. apply (fold_settle_warns _ st1 (returned sess args h) e); [|exact He].
    now apply list_elem_of_fmap_2.
Qed.

(** When no callback throws on being called and every returned promise
    settles, [parallel] calls every hook of the snapshot, waits until every
    returned promise has settled, logs the reason of every rejection as a
    warning, and resolves. *)
Lemma parallel_awaits_all sess name args st :
  Forall (returns sess args) (getHooks name sess st) ->
  all_settle sess args (getHooks name sess st) ->
  let st' := (parallel sess name args st).1 in
  (parallel sess name args st).2 = Resolved VUndefined
  /\ invoked (trace st') = invoked (trace st) ++ getHooks name sess st
  /\ settlements (trace st') = settlements (trace st) + length (getHooks name sess st)
  /\ (forall h e, h ∈ getHooks name sess st ->
        settle_of (returned sess args h) = Rejected e -> WError e ∈ warnings st').
Proof.
  intros Hall Hset.
  assert (Hvs : Forall (fun v => pending v = false)
                  (map (returned sess args) (getHooks name sess st))).
  { apply Forall_fmap. exact Hset. }
  destruct (parallel_calls_all sess name args st Hall) as (Hr & Ht & Hi & Hw).
  split; [rewrite Hr; now rewrite (proj2 (existsb_pending _) Hvs)|].
  split; [exact Hi|]. split; [|exact Hw].
  rewrite Ht, !settlements_app, settlements_Invoked, settlements_Settled by exact Hvs.
  rewrite length_map. lia.
Qed.

(** *** The task queue, ['ready'] and [start] *)


(** The bus when the promise of a task has run as far as it gets, the task
    still in the set. *)
Definition ran (k : task) (st : t) : t :=
  match k with
  | TValue v => settle_task v st
  | TDeferred l =>
      match result (bodies l None []) with
      | Throw e =>
          warn (WError e) (record (Settled (Rejected e)) (invoke l None [] st).1)
      | Return v => settle_task v (invoke l None [] st).1
      end
  end.

(** The promise of the task stays pending. *)
Definition never_settles (k : task) : bool :=
  match k with
  | TValue v => pending v
  | TDeferred l =>
      match result (bodies l None []) with
      | Throw _ => false
      | Return v => pending v
      end
  end.

Lemma run_task_eq k st :
  run_task k st
  = set_tasks (if never_settles k then stick_task k (_tasks (ran k st))
               else remove_task k (_tasks (ran k st))) (ran k st).
Proof.
  unfold Lifecycle.run_task, ran, never_settles. destruct k as [v|l]; [reflexivity|].
  rewrite invoke_eq. now destruct (result (bodies l None [])).
Qed.

Lemma ran_keeps k st : keeps_tasks st (ran k st).
Proof.
  unfold ran. destruct k as [v|l]; [apply settle_task_keeps|].
  pose proof (invoke_keeps l None [] st) as Hi.
  destruct (result (bodies l None [])) as [v|e].
  - eapply keeps_tasks_trans; [exact Hi | apply settle_task_keeps].
  - eapply keeps_tasks_trans; [exact Hi|].
    eapply keeps_tasks_trans; [apply record_keeps | apply warn_keeps].
Qed.

Lemma run_task_extends k st : extends st (run_task k st).
Proof.
  rewrite run_task_eq. destruct (ran_keeps k st) as [[Ht Hw] _].
  split; cbn [trace warnings set_tasks]; assumption.
Qed.

Lemma run_tasks_extends ts : forall st, extends st (run_tasks ts st).
Proof.
  induction ts as [|k ts IH]; intros st; [apply extends_refl|].
  simpl. eapply extends_trans; [apply run_task_extends | apply IH].
Qed.

Lemma run_task_invokes l st : Invoked l None [] ∈ trace (run_task (TDeferred l) st).
Proof.
  rewrite run_task_eq. cbn [trace set_tasks ran].
  pose proof (invoke_trace l None [] st) as Ht.
  destruct (result (bodies l None [])) as [v|e].
  - apply settle_task_keeps. rewrite Ht. list_mem.
  - cbn [trace warn record]. rewrite Ht. list_mem.
Qed.

Lemma run_tasks_invokes ts : forall st l,
  TDeferred l ∈ ts -> Invoked l None [] ∈ trace (run_tasks ts st).
Proof.
  induction ts as [|k ts IH]; intros st l Hl; [inversion Hl|].
  simpl. apply elem_of_cons in Hl as [<-|Hl].
  - apply run_tasks_extends, run_task_invokes.
  - now apply IH.
Qed.

Lemma flush_eq fuel st :
  flush fuel st =
  match _tasks st with
  | [] => Some st
  | _ :: _ =>
      match fuel with
      | 0 => None
      | S fuel' => flush fuel' (run_tasks (_tasks st) st)
      end
  end.
Proof. destruct fuel; cbn [Lifecycle.flush]; destruct (_tasks st); reflexivity. Qed.

Lemma flush_extends fuel : forall st st', flush fuel st = Some st' -> extends st st'.
Proof.
  induction fuel as [|fuel IH]; intros st st' H; rewrite flush_eq in H;
    destruct (_tasks st) as [|k ts] eqn:Hts; try discriminate.
  - injection H as <-. apply extends_refl.
  - injection H as <-. apply extends_refl.
  - eapply extends_trans; [apply run_tasks_extends | apply IH, H].
Qed.

(** [flush] returns only when the queue is empty, and by then every deferred
    listener that was in the queue has been called. *)
Lemma flush_drains fuel st st' :
  flush fuel st = Some st' ->
  _tasks st' = []
  /\ forall l, TDeferred l ∈ _tasks st -> Invoked l None [] ∈ trace st'.
Proof.
  intros H. split.
  - revert st H. induction fuel as [|fuel IH]; intros st H; rewrite flush_eq in H;
      destruct (_tasks st) as [|k ts] eqn:Hts; try discriminate.
    + now injection H as <-.
    + now injection H as <-.
    + exact (IH _ H).
  - intros l Hl. rewrite flush_eq in H.
    destruct (_tasks st) as [|k ts] eqn:Hts; [now inversion Hl|].
    destruct fuel as [|fuel]; [discriminate|].
    apply (flush_extends _ _ _ H). now apply run_tasks_invokes.
Qed.




(** A body is quiet when it registers no ['ready'] listener, neither when it
    is called nor in the asynchronous part of a promise it returns, and when
    the promise it returns settles. *)
Definition quiet_cmd (c : cmd) : Prop :=
  match c with
  | COn _ name _ _ => name <> "ready"
  | COff _ _ _ => True
  end.

Fixpoint quiet_value (v : value) : Prop :=
  match v with
  | VPromise later _ payload => Forall quiet_cmd later /\ quiet_value payload
  | VPending _ => False
  | _ => True
  end.

Definition quiet_task (k : task) : Prop :=
  match k with
  | TValue v => quiet_value v
  | TDeferred _ => True
  end.

Definition quiet_bodies : Prop :=
  forall l sess args,
    Forall quiet_cmd (sync (bodies l sess args))
    /\ match result (bodies l sess args) with
       | Return v => quiet_value v
       | Throw _ => True
       end.

Lemma run_cmds_quiet cs : forall st,
  Forall quiet_cmd cs -> _tasks (run_cmds cs st) = _tasks st.
Proof.
  induction cs as [|c cs IH]; intros st Hq; [reflexivity|].
  inversion Hq as [|? ? Hc Hcs]; subst. cbn [Lifecycle.run_cmds fold_left].
  change (_tasks (run_cmds cs (Lifecycle.run_cmd state_of c st)) = _tasks st).
  rewrite IH by exact Hcs. destruct c as [c name l p|c name l]; cbn [Lifecycle.run_cmd].
  - unfold Lifecycle.on. cbn in Hc.
    rewrite bool_decide_eq_false_2 by exact Hc. cbn [andb].
    destruct (decide (name = "dispose")); [reflexivity|].
    cbn. destruct (maxListeners (config st)) as [max|]; [|reflexivity].
    destruct (max <=? _)%Z; reflexivity.
  - unfold Lifecycle.off. destruct (findIndex _ _ _); reflexivity.
Qed.

Lemma await_quiet v : forall st, quiet_value v -> _tasks (await v st).1 = _tasks st.
Proof.
  induction v as [| | | | | |later f payload IH|later]; intros st Hq; try reflexivity.
  - destruct Hq as [Hl Hp]. cbn [Lifecycle.await]. destruct f.
    + rewrite IH by exact Hp. now apply run_cmds_quiet.
    + cbn [fst]. now apply run_cmds_quiet.
  - destruct Hq.
Qed.

Lemma quiet_settles v : quiet_value v -> pending v = false.
Proof.
  induction v as [| | | | | |later f payload IH|later]; cbn; try reflexivity.
  - intros [_ Hp]. destruct f; [now apply IH|reflexivity].
  - intros [].
Qed.

Lemma settle_task_quiet v st : quiet_value v -> _tasks (settle_task v st) = _tasks st.
Proof.
  intros Hq. unfold Lifecycle.settle_task, Lifecycle.awaited.
  pose proof (await_quiet v st Hq) as Ht.
  destruct (await v st) as [st1 [r|e|]]; exact Ht.
Qed.

Lemma invoke_quiet l sess args st :
  quiet_bodies -> _tasks (invoke l sess args st).1 = _tasks st.
Proof.
  intros Hq. unfold Lifecycle.invoke. cbn [fst].
  rewrite run_cmds_quiet by apply Hq. reflexivity.
Qed.

Lemma quiet_task_settles k : quiet_bodies -> quiet_task k -> never_settles k = false.
Proof.
  intros Hq Hk. destruct k as [v|l]; cbn [never_settles]; [now apply quiet_settles|].
  destruct (Hq l None []) as [_ Hv].
  destruct (result (bodies l None [])); [now apply quiet_settles|reflexivity].
Qed.

Lemma ran_quiet k st : quiet_bodies -> quiet_task k -> _tasks (ran k st) = _tasks st.
Proof.
  intros Hq Hk. destruct k as [v|l]; cbn [ran]; [now apply settle_task_quiet|].
  destruct (Hq l None []) as [_ Hv].
  destruct (result (bodies l None [])).
  - rewrite settle_task_quiet by exact Hv. now apply invoke_quiet.
  - cbn [_tasks warn record]. now apply invoke_quiet.
Qed.

Lemma run_task_quiet k rest st :
  quiet_bodies -> quiet_task k -> _tasks st = k :: rest ->
  _tasks (run_task k st) = rest.
Proof.
  intros Hq Hk Hts.
  rewrite run_task_eq, (quiet_task_settles k Hq Hk), (ran_quiet k st Hq Hk), Hts.
  cbn [_tasks set_tasks remove_task]. now rewrite decide_True.
Qed.

Lemma run_tasks_quiet ts : forall st,
  quiet_bodies -> Forall quiet_task ts -> _tasks st = ts ->
  _tasks (run_tasks ts st) = [].
Proof.
  induction ts as [|k ts IH]; intros st Hq Hts Heq; [exact Heq|].
  inversion Hts as [|? ? Hk Hts']; subst.
  cbn [Lifecycle.run_tasks fold_left].
  change (_tasks (run_tasks ts (run_task k st)) = []).
  apply IH; [exact Hq | exact Hts' | now apply run_task_quiet].
Qed.

Lemma start_loop_quiet cbs : forall st,
  quiet_bodies -> Forall (returns None []) cbs -> Forall quiet_task (_tasks st) ->
  (start_loop cbs st).2 = None /\ Forall quiet_task (_tasks (start_loop cbs st).1).
Proof.
  induction cbs as [|cb cbs IH]; intros st Hq Hret Hts; [now split|].
  inversion Hret as [|? ? [v Hv] Hret']; subst.
  cbn [Lifecycle.start_loop]. rewrite invoke_eq, Hv. apply IH; [exact Hq|exact Hret'|].
  cbn [_tasks queue set_tasks]. rewrite invoke_quiet by exact Hq.
  apply Forall_app. split; [exact Hts|]. constructor; [|constructor].
  destruct (Hq cb None []) as [_ Hqv]. now rewrite Hv in Hqv.
Qed.


(** When no body registers a ['ready'] listener, every promise that a body
    returns or that is in the queue settles, and no ['ready'] callback throws
    on being called, one round of [flush] empties the queue and [start]
    resolves. *)
Lemma start_resolves fuel st :
  quiet_bodies ->
  Forall (returns None []) (getHooks "ready" None st) ->
  Forall quiet_task (_tasks st) ->
  exists st', start (S fuel) st = Some (st', Resolved VUndefined).
Proof.
  intros Hq Hret Hts. unfold Lifecycle.start.
  destruct (start_loop_quiet (getHooks "ready" None (set_isActive true st))
              (set_isActive true st) Hq Hret Hts) as [Hnone Hquiet].
  destruct (start_loop _ _) as [st1 thrown]. cbn [fst snd] in Hnone, Hquiet. subst thrown.
  rewrite flush_eq. cbn [_tasks set_hooks].
  destruct (_tasks st1) as [|k ts] eqn:Hst1; [eauto|].
  rewrite flush_eq.
  rewrite (run_tasks_quiet (k :: ts) _ Hq Hquiet) by exact Hst1. eauto.
Qed.

(** *** Tasks that stay pending *)







(** *** Tasks that have run to their end *)














(** The bus when [start] reaches [flush]: the ['ready'] callbacks have been
    called and the hook list of ['ready'] is deleted. *)
Definition started (st : t) : t :=
  let st0 := set_isActive true st in
  let st1 := (start_loop (getHooks "ready" None st0) st0).1 in
  set_hooks (delete "ready" (_hooks st1)) st1.



(** *** Dispatch over a snapshot *)

(** The listeners called between [st] and [st'] are the first few of [cbs],
    in order. *)
Definition calls_prefix_of (cbs : list lid) (st st' : t) : Prop :=
  exists k, invoked (trace st') = invoked (trace st) ++ take k cbs.

Lemma calls_prefix_nil cbs st st' :
  invoked (trace st') = invoked (trace st) -> calls_prefix_of cbs st st'.
Proof. intros H. exists 0. now rewrite H, take_0, app_nil_r. Qed.

Lemma calls_prefix_one cb cbs st st' :
  invoked (trace st') = invoked (trace st) ++ [cb] -> calls_prefix_of (cb :: cbs) st st'.
Proof. intros H. exists 1. now rewrite H. Qed.

Lemma calls_prefix_cons cb cbs st st1 st' :
  invoked (trace st1) = invoked (trace st) ++ [cb] ->
  calls_prefix_of cbs st1 st' -> calls_prefix_of (cb :: cbs) st st'.
Proof. intros H [k Hk]. exists (S k). rewrite Hk, H. cbn. now rewrite <- app_assoc. Qed.

Lemma invoke_calls cb sess args st :
  invoked (trace (invoke cb sess args st).1) = invoked (trace st) ++ [cb].
Proof. now rewrite invoke_trace, invoked_app. Qed.

Lemma awaited_calls v st : invoked (trace (awaited v st).1) = invoked (trace st).
Proof. rewrite awaited_trace, invoked_app, invoked_settling. apply app_nil_r. Qed.

Lemma parallel_loop_prefix cbs : forall sess args tasks st,
  calls_prefix_of cbs st (parallel_loop cbs sess args tasks st).1.
Proof.
  induction cbs as [|cb cbs IH]; intros sess args tasks st.
  - now apply calls_prefix_nil.
  - cbn [Lifecycle.parallel_loop]. pose proof (invoke_calls cb sess args st) as Hc.
    destruct (invoke cb sess args st) as [st1 [v|e]]; cbn [fst] in Hc.
    + eapply calls_prefix_cons; [exact Hc | apply IH].
    + now apply calls_prefix_one.
Qed.

Lemma bail_loop_prefix cbs : forall sess args st,
  calls_prefix_of cbs st (bail_loop cbs sess args st).1.
Proof.
  induction cbs as [|cb cbs IH]; intros sess args st.
  - now apply calls_prefix_nil.
  - cbn [Lifecycle.bail_loop]. pose proof (invoke_calls cb sess args st) as Hc.
    destruct (invoke cb sess args st) as [st1 [v|e]]; cbn [fst] in Hc.
    + destruct (isBailed v).
      * now apply calls_prefix_one.
      * eapply calls_prefix_cons; [exact Hc | apply IH].
    + now apply calls_prefix_one.
Qed.

Lemma chain_loop_prefix cbs : forall sess args st,
  calls_prefix_of cbs st (chain_loop cbs sess args st).1.
Proof.
  induction cbs as [|cb cbs IH]; intros sess args st.
  - now apply calls_prefix_nil.
  - cbn [Lifecycle.chain_loop]. pose proof (invoke_calls cb sess args st) as Hc.
    destruct (invoke cb sess args st) as [st1 [v|e]]; cbn [fst] in Hc.
    + eapply calls_prefix_cons; [exact Hc | apply IH].
    + now apply calls_prefix_one.
Qed.

Lemma serial_loop_prefix cbs : forall sess args st,
  calls_prefix_of cbs st (serial_loop cbs sess args st).1.
Proof.
  induction cbs as [|cb cbs IH]; intros sess args st.
  - now apply calls_prefix_nil.
  - cbn [Lifecycle.serial_loop]. pose proof (invoke_calls cb sess args st) as Hc.
    destruct (invoke cb sess args st) as [st1 [v|e]]; cbn [fst] in Hc.
    + pose proof (awaited_calls v st1) as Ha. rewrite Hc in Ha.
      destruct (awaited v st1) as [st2 [r|e|]]; cbn [fst] in Ha.
      * destruct (isBailed r).
        -- now apply calls_prefix_one.
        -- eapply calls_prefix_cons; [exact Ha | apply IH].
      * now apply calls_prefix_one.
      * now apply calls_prefix_one.
    + now apply calls_prefix_one.
Qed.

Lemma waterfall_loop_prefix cbs : forall sess args st,
  calls_prefix_of cbs st (waterfall_loop cbs sess args st).1.
Proof.
  induction cbs as [|cb cbs IH]; intros sess args st.
  - apply calls_prefix_nil. cbn [Lifecycle.waterfall_loop]. now rewrite await_trace.
  - cbn [Lifecycle.waterfall_loop]. pose proof (invoke_calls cb sess args st) as Hc.
    destruct (invoke cb sess args st) as [st1 [v|e]]; cbn [fst] in Hc.
    + pose proof (awaited_calls v st1) as Ha. rewrite Hc in Ha.
      destruct (awaited v st1) as [st2 [r|e|]]; cbn [fst] in Ha.
      * eapply calls_prefix_cons; [exact Ha | apply IH].
      * now apply calls_prefix_one.
      * now apply calls_prefix_one.
    + now apply calls_prefix_one.
Qed.

Lemma chain_loop_full sess cbs : forall args st,
  Forall (fun h => forall a, returns sess a h) cbs ->
  invoked (trace (chain_loop cbs sess args st).1) = invoked (trace st) ++ cbs.
Proof.
  induction cbs as [|cb cbs IH]; intros args st Hall.
  - cbn. now rewrite app_nil_r.
  - inversion Hall as [|? ? Hcb Hall']; subst. destruct (Hcb args) as [v Hv].
    cbn [Lifecycle.chain_loop]. rewrite invoke_eq, Hv.
    rewrite IH by exact Hall'. rewrite invoke_calls. now rewrite <- app_assoc.
Qed.

Lemma settle_of_not_bailed u : ~ bailed u -> settle_of u = Resolved u.
Proof.
  intros H. apply not_bailed, isBailed_false in H as [->|[->| ->]]; reflexivity.
Qed.

Lemma passes_passes_awaited sess a h : passes sess a h -> passes_awaited sess a h.
Proof.
  intros (u & Hu & Hn). exists u, u. split; [exact Hu|].
  split; [now apply settle_of_not_bailed|exact Hn].
Qed.

Lemma waterfall_loop_full sess cbs : forall args st,
  Forall (fun h => forall a, passes sess a h) cbs ->
  invoked (trace (waterfall_loop cbs sess args st).1) = invoked (trace st) ++ cbs.
Proof.
  induction cbs as [|cb cbs IH]; intros args st Hall.
  - cbn [Lifecycle.waterfall_loop]. now rewrite await_trace, app_nil_r.
  - inversion Hall as [|? ? Hcb Hall']; subst. destruct (Hcb args) as (u & Hu & Hn).
    cbn [Lifecycle.waterfall_loop].
    rewrite invoke_eq, Hu, awaited_eq, (settle_of_not_bailed u Hn).
    rewrite IH by exact Hall'. rewrite awaited_calls, invoke_calls.
    now rewrite <- app_assoc.
Qed.

(** C10: whatever the listeners do to the hook table while a dispatch runs,
    the listeners that the dispatch calls are the first few of the snapshot
    [getHooks] took when it began, in the order of the snapshot; this holds
    for all five strategies.  When no callback cuts the dispatch short (each
    returns [null], [false] or [undefined]), each strategy calls exactly the
    snapshot: a listener registered during the dispatch is not called by it,
    a listener removed during the dispatch still is. *)
Theorem dispatch_iterates_over_snapshot sess name args st :
  let snapshot := getHooks name sess st in
  calls_prefix_of snapshot st (parallel sess name args st).1
  /\ calls_prefix_of snapshot st (serial sess name args st).1
  /\ calls_prefix_of snapshot st (bail sess name args st).1
  /\ calls_prefix_of snapshot st (chain sess name args st).1
  /\ calls_prefix_of snapshot st (waterfall sess name args st).1
  /\ (Forall (fun h => forall a, passes sess a h) snapshot ->
      invoked (trace (parallel sess name args st).1) = invoked (trace st) ++ snapshot
      /\ invoked (trace (serial sess name args st).1) = invoked (trace st) ++ snapshot
      /\ invoked (trace (bail sess name args st).1) = invoked (trace st) ++ snapshot
      /\ invoked (trace (chain sess name args st).1) = invoked (trace st) ++ snapshot
      /\ invoked (trace (waterfall sess name args st).1) = invoked (trace st) ++ snapshot).
Proof.
  intros snapshot. subst snapshot.
  split; [|split; [|split; [|split; [|split]]]].
  - unfold Lifecycle.parallel.
    pose proof (parallel_loop_prefix (getHooks name sess st) sess args [] st) as [k Hk].
    destruct (parallel_loop _ _ _ _ _) as [st1 [tasks|e]]; cbn [fst] in *.
    + exists k. now rewrite fold_settle_trace, invoked_app, invoked_Settled, app_nil_r.
    + now exists k.
  - apply serial_loop_prefix.
  - apply bail_loop_prefix.
  - apply chain_loop_prefix.
  - apply waterfall_loop_prefix.
  - intros Hall.
    assert (Hargs : Forall (passes sess args) (getHooks name sess st)).
    { eapply Forall_impl; [exact Hall|]. intros h Hh. apply Hh. }
    split; [|split; [|split; [|split]]].
    + apply parallel_calls_all. eapply Forall_impl; [exact Hargs|].
      intros h (u & Hu & _). now exists u.
    + apply serial_loop_miss. eapply Forall_impl; [exact Hargs|].
      intros h. apply passes_passes_awaited.
    + now apply bail_loop_miss.
    + apply chain_loop_full. eapply Forall_impl; [exact Hall|].
      intros h Hh a. destruct (Hh a) as (u & Hu & _). now exists u.
    + now apply waterfall_loop_full.
Qed.

End Facts.

(** *** Concrete buses *)

(** Every context is its own scope and matches every session. *)
Definition own (c : ctx) : scope := c.
Definition everywhere (c : ctx) (sess : option session) : bool := true.

Definition unlimited : Config := {| maxListeners := None |}.
Definition at_most (n : Z) : Config := {| maxListeners := Some n |}.

(** Listeners 1, 2 and 3 registered in this order for ["event"] by context 0. *)
Definition three_hooks (cfg : Config) : t :=
  foldl (fun st l => (on own 0 "event" l false st).1) (create cfg) [1; 2; 3].

(** Hooks returning [undefined], [5] and [10]. *)
Definition undefined_5_10 (l : lid) (sess : option session) (args : list value) : body :=
  match l with
  | 2 => Body [] (Return (VNum 5))
  | 3 => Body [] (Return (VNum 10))
  | _ => Body [] (Return VUndefined)
  end.

(** The second hook throws when called. *)
Definition second_throws (l : lid) (sess : option session) (args : list value) : body :=
  match l with
  | 2 => Body [] (Throw (VStr "boom"))
  | _ => Body [] (Return VUndefined)
  end.

(** The second hook is an [async] function that throws: it returns a promise
    that rejects. *)
Definition second_rejects (l : lid) (sess : option session) (args : list value) : body :=
  match l with
  | 2 => Body [] (Return (VPromise [] false (VStr "boom")))
  | _ => Body [] (Return VUndefined)
  end.

(** The first hook registers listener 4 and removes listener 2. *)
Definition first_mutates (l : lid) (sess : option session) (args : list value) : body :=
  match l with
  | 1 => Body [COn 0 "event" 4 false; COff 0 "event" 2] (Return VUndefined)
  | _ => Body [] (Return VUndefined)
  end.

(** Listener 1 registers listener 2 for ['ready'] when it is called, and
    listener 2 registers listener 3 in the asynchronous part of its body. *)
Definition ready_chain (l : lid) (sess : option session) (args : list value) : body :=
  match l with
  | 1 => Body [COn 0 "ready" 2 false] (Return VUndefined)
  | 2 => Body [] (Return (VPromise [COn 0 "ready" 3 false] true VUndefined))
  | _ => Body [] (Return VUndefined)
  end.

(** Listener 1 registered for ['ready'] before [start]. *)
Definition before_start (cfg : Config) : t :=
  (on own 0 "ready" 1 false (create cfg)).1.

(** The bus of [before_start] once [start] has resolved. *)
Definition after_start : t :=
  match start own everywhere ready_chain 3 (before_start unlimited) with
  | Some (st, _) => st
  | None => before_start unlimited
  end.

Lemma on_dispose_goes_to_disposables_witness :
  let st := three_hooks unlimited in
  let st' := (on own 0 "dispose" 9 false st).1 in
  _hooks st' = _hooks st
  /\ disposables_of 0 st' = disposables_of 0 st ++ [DListener 9]
  /\ disposables_of 1 st' = disposables_of 1 st.
Proof.
  destruct (on_dispose_goes_to_disposables own) as [H _].
  destruct (H 0 9 false (three_hooks unlimited)) as (Hh & Hd & Ho & _).
  split; [exact Hh|]. split; [exact Hd|]. apply Ho. discriminate.
Defined.

Lemma serial_bail_return_first_result_witness :
  let st := three_hooks unlimited in
  (bail own everywhere undefined_5_10 None "event" [] st).2 = Return (VNum 5)
  /\ invoked (trace (bail own everywhere undefined_5_10 None "event" [] st).1) = [1; 2]
  /\ (serial own everywhere undefined_5_10 None "event" [] st).2 = Resolved (VNum 5)
  /\ invoked (trace (serial own everywhere undefined_5_10 None "event" [] st).1) = [1; 2].
Proof.
  destruct (serial_bail_return_first_result own everywhere undefined_5_10
              None "event" [] (three_hooks unlimited)) as (Hb & _ & Hs & _).
  assert (Hn : ~ bailed VUndefined) by (intros (_ & _ & H); now apply H).
  assert (H5 : bailed (VNum 5)) by (repeat split; discriminate).
  destruct (Hb [1] 2 [3] (VNum 5)) as [Hb1 Hb2];
    [reflexivity | repeat constructor; exists VUndefined; now split
    | reflexivity | exact H5 |].
  destruct (Hs [1] 2 [3] (VNum 5) (VNum 5)) as [Hs1 Hs2];
    [reflexivity | repeat constructor; exists VUndefined, VUndefined; now repeat split
    | reflexivity | reflexivity | exact H5 |].
  repeat split; assumption.
Defined.

(** C3 on the code: over three hooks of which the second throws when it is
    called, [parallel] rejects with the thrown value, the third hook is never
    called and nothing is logged. *)
Theorem parallel_stops_at_a_throwing_hook :
  let r := parallel own everywhere second_throws None "event" [] (three_hooks unlimited) in
  r.2 = Rejected (VStr "boom")
  /\ invoked (trace r.1) = [1; 2]
  /\ warnings r.1 = [].
Proof. vm_compute. repeat split. Qed.

(** When the second hook returns a promise that rejects, [parallel] does
    what C3 says. *)
Example parallel_logs_a_rejecting_hook :
  let r := parallel own everywhere second_rejects None "event" [] (three_hooks unlimited) in
  r.2 = Resolved VUndefined
  /\ invoked (trace r.1) = [1; 2; 3]
  /\ settlements (trace r.1) = 3
  /\ warnings r.1 = [WError (VStr "boom")].
Proof. vm_compute. repeat split. Qed.

Lemma start_ready_chain :
  start own everywhere ready_chain 3 (before_start unlimited)
  = Some (after_start, Resolved VUndefined).
Proof. vm_compute. reflexivity. Qed.



(** The bus as [start] has it when it calls the first ['ready'] callback:
    active, the hook list of ['ready'] not yet deleted. *)
Definition during_start : t := set_isActive true (before_start (at_most 1)).

(** C9 as stated fails for ['ready'] while the bus is active: the hook list
    holds the maximum, yet [on] logs nothing and the listener does not join
    the hook list; it is queued instead, and [start] resolves without any
    warning.  It fails for ['dispose'] as well, which never has a hook list:
    with a maximum of 0 nothing is logged and the hook table stays empty. *)
Lemma on_beyond_max_listeners_not_for_special_names :
  let st' := (on own 0 "ready" 2 false during_start).1 in
  let st'' := (on own 0 "dispose" 2 false (create (at_most 0))).1 in
  (maxListeners (config during_start) = Some 1%Z)
  /\ (1 <= Z.of_nat (length (hooks_of "ready" during_start)))%Z
  /\ warnings st' = warnings during_start
  /\ ((0, 2) ∉ hooks_of "ready" st')
  /\ _tasks st' = [TDeferred 2]
  /\ (invoke own ready_chain 1 None [] during_start).1
     = (on own 0 "ready" 2 false (record (Invoked 1 None []) during_start)).1
  /\ (exists st,
        start own everywhere ready_chain 3 (before_start (at_most 1))
        = Some (st, Resolved VUndefined)
        /\ warnings st = [] /\ _hooks st !! "ready" = None
        /\ invoked (trace st) = [1; 2; 3])
  /\ (0 <= Z.of_nat (length (hooks_of "dispose" (create (at_most 0)))))%Z
  /\ warnings st'' = [] /\ hooks_of "dispose" st'' = [].
Proof.
  repeat split.
  - vm_compute. discriminate.
  - vm_compute. intros H. apply list_elem_of_singleton in H. discriminate.
  - eexists. split; [vm_compute; reflexivity|]. repeat split.
  - vm_compute. discriminate.
Qed.

Lemma on_beyond_max_listeners_witness :
  let st := three_hooks (at_most 3) in
  let st' := (on own 0 "event" 4 false st).1 in
  warnings st' = [WMaxListeners 3 "event"]
  /\ hooks_of "event" st' = [(0, 1); (0, 2); (0, 3); (0, 4)]
  /\ Invoked 4 None [] ∈ trace (parallel own everywhere undefined_5_10 None "event" [] st').1.
Proof.
  destruct (on_beyond_max_listeners own everywhere undefined_5_10 0 "event" 4 false
              (three_hooks (at_most 3)) 3) as (Hw & Hh & _ & Hd).
  - discriminate.
  - intros [H _]. discriminate.
  - reflexivity.
  - vm_compute. discriminate.
  - split; [exact Hw|]. split; [exact Hh|].
    destruct (Hd None eq_refl) as [_ Hp]. apply Hp.
    intros cb _ _. destruct cb as [|[|[|[|cb]]]]; eexists; reflexivity.
Defined.

Lemma dispatch_iterates_over_snapshot_witness :
  let st := three_hooks unlimited in
  let st' := (chain own everywhere first_mutates None "event" [] st).1 in
  getHooks everywhere "event" None st = [1; 2; 3]
  /\ invoked (trace st') = [1; 2; 3]
  /\ getHooks everywhere "event" None st' = [1; 3; 4]
  /\ invoked (trace (chain own everywhere first_mutates None "event" [] st').1)
     = [1; 2; 3; 1; 3; 4]
  /\ invoked (trace (parallel own everywhere first_mutates None "event" [] st).1) = [1; 2; 3]
  /\ invoked (trace (bail own everywhere first_mutates None "event" [] st).1) = [1; 2; 3].
Proof.
  destruct (dispatch_iterates_over_snapshot own everywhere first_mutates
              None "event" [] (three_hooks unlimited)) as (_ & _ & _ & _ & _ & H).
  destruct H as (Hp & _ & Hb & Hc & _).
  - apply Forall_forall. intros h _ a. exists VUndefined.
    split; [destruct h as [|[|h]]; reflexivity|]. intros (_ & _ & Hu). now apply Hu.
  - split; [reflexivity|]. split; [exact Hc|].
    split; [vm_compute; reflexivity|]. split; [vm_compute; reflexivity|].
    split; [exact Hp|exact Hb].
Defined.

End LifecycleFacts.

(** * Properties of the registry *)

Module RegistryFacts.

Import JS Registry.

(** A value of type ["object"] other than [null]. *)
Definition is_object (v : jsval) : Prop := typeof v = "object" /\ v <> JNull.

(** A function, or an object that exposes an [apply] function. *)
Definition valid_shape (p : Plugin) : Prop :=
  typeof (self p) = "function"
  \/ (is_object (self p) /\ typeof (p_apply p) = "function").

Lemma object_truthy v : is_object v -> truthy v = true.
Proof. intros [Ht Hn]. destruct v; try discriminate; try reflexivity. congruence. Qed.

Lemma truthy_object v : truthy v = true -> typeof v = "object" -> is_object v.
Proof. intros Ht Ho. split; [exact Ho|]. intros ->. discriminate. Qed.

Lemma isApplicable_true p :
  isApplicable p = true <-> is_object (self p) /\ typeof (p_apply p) = "function".
Proof.
  unfold isApplicable. rewrite !andb_true_iff, !bool_decide_eq_true. split.
  - intros [[Ht Ho] Ha]. split; [now apply truthy_object|exact Ha].
  - intros [Ho Ha]. split; [split; [now apply object_truthy|apply Ho]|exact Ha].
Qed.

(** [resolve] yields a function for a valid shape, whatever [assert] is. *)
Lemma resolve_valid p assert :
  valid_shape p ->
  exists key, resolve p assert = inl key /\ typeof key = "function".
Proof.
  intros Hv. unfold resolve.
  destruct (bool_decide (typeof (self p) = "function")) eqn:Hf.
  - apply bool_decide_eq_true in Hf. eauto.
  - apply bool_decide_eq_false in Hf. destruct Hv as [Hv|Hv]; [contradiction|].
    pose proof (proj2 (isApplicable_true p) Hv) as Ha. rewrite Ha.
    destruct Hv as [_ Hv]. eauto.
Qed.

Lemma resolve_invalid p :
  ~ valid_shape p ->
  resolve p true
  = inr (JError ("invalid plugin, expect function or object with an " +:+ quoted "apply"
                 +:+ " method, received " +:+ typeof (self p)))
  /\ resolve p false = inl JUndefined.
Proof.
  intros Hv. unfold resolve.
  destruct (bool_decide (typeof (self p) = "function")) eqn:Hf.
  { apply bool_decide_eq_true in Hf. exfalso. apply Hv. now left. }
  destruct (isApplicable p) eqn:Ha.
  { apply isApplicable_true in Ha. exfalso. apply Hv. now right. }
  split; reflexivity.
Qed.

Section Facts.

Variable call : nat -> jsval -> jsval + jsval.

Local Abbreviation plugin := (Registry.plugin call).
Local Abbreviation resolveConfig := (Registry.resolveConfig call).

(** C5: offered a value that is neither a function nor an object exposing
    an [apply] function, [plugin] throws the error of [resolve] and leaves
    the registry as it was; for a function and for an object exposing an
    [apply] function the validation by [resolve] yields a function and does
    not throw. *)
Theorem plugin_validates_shape p :
  (~ valid_shape p ->
   forall config error st,
     exists message,
       plugin p config error st = (st, inr (JError message))
       /\ has p st = false /\ get p st = None)
  /\ (valid_shape p ->
      exists key, resolve p true = inl key /\ typeof key = "function").
Proof.
  split.
  - intros Hv config error st. destruct (resolve_invalid p Hv) as [Ht Hf].
    eexists. unfold Registry.plugin, has, get. rewrite Ht, Hf. repeat split.
  - apply resolve_valid.
Qed.

Lemma resolve_assert p : valid_shape p -> resolve p true = resolve p false.
Proof.
  intros Hv. unfold resolve.
  destruct (bool_decide (typeof (self p) = "function")) eqn:Hf; [reflexivity|].
  apply bool_decide_eq_false in Hf. destruct Hv as [Hv|Hv]; [contradiction|].
  now rewrite (proj2 (isApplicable_true p) Hv).
Qed.

Lemma function_truthy v : typeof v = "function" -> truthy v = true.
Proof. destruct v; try discriminate. reflexivity. Qed.

(** What [get] and [has] answer once the plugin resolves to a function. *)
Lemma get_resolved p key a st :
  resolve p a = inl key -> typeof key = "function" ->
  get p st = _internal st !! ref key
  /\ has p st = bool_decide (is_Some (_internal st !! ref key)).
Proof.
  intros Hr Hk.
  assert (Hv : valid_shape p).
  { unfold resolve in Hr.
    destruct (bool_decide (typeof (self p) = "function")) eqn:Hf.
    - left. now apply bool_decide_eq_true in Hf.
    - destruct (isApplicable p) eqn:Ha; [right; now apply isApplicable_true|].
      destruct a; [discriminate|]. injection Hr as <-. discriminate. }
  assert (Hr' : resolve p false = inl key).
  { destruct a; [now rewrite <- resolve_assert|exact Hr]. }
  unfold get, has. rewrite Hr', (function_truthy key Hk). now split.
Qed.

Lemma resolveConfig_throws p config f reason :
  or_else (p_Config p) (p_schema p) = JFunction f ->
  p_schema p <> JBool false ->
  call f config = inr reason ->
  resolveConfig p config = inr reason.
Proof.
  intros Hs Hf Hc. unfold Registry.resolveConfig. rewrite Hs. simpl.
  rewrite bool_decide_eq_false_2 by exact Hf. simpl. now rewrite Hc.
Qed.

(** The registry after a call of [plugin] that gets past [resolve] and
    [assertActive]: the resolved configuration and the error decide between
    [cancel] and [start]. *)
Lemma plugin_installs p config error st key :
  resolve p true = inl key -> ctx_active st = true ->
  let outcome :=
    if truthy error then (config, error, emitted st)
    else match resolveConfig p config with
         | inl config' => (config', error, emitted st)
         | inr reason => (JNull, reason, emitted st ++ [("internal/error", reason)])
         end in
  let id := S (_counter st) in
  let fresh :=
    {| uid := id; scope_config := outcome.1.1; scope_plugin := ref key;
       scope_error := JUndefined; cancelled := false; started := false |} in
  let step := if truthy outcome.1.1 then start else cancel outcome.1.2 in
  plugin p config error st
  = (Reg id (<[ref key := add_scope id (Plugin_resolve p)]> (_internal st)) true
         (map (fun s => if decide (uid s = id) then step s else s) (all_scopes st)
          ++ [step fresh])
         outcome.2,
     inl (step fresh)).
Proof.
  intros Hr Ha. unfold Registry.plugin. rewrite Hr, Ha. cbn [negb].
  assert (Hfin : forall cfg err ev,
    (let '(st1, scope) :=
       new_scope cfg (ref key)
         (Reg (_counter st) (<[ref key := Plugin_resolve p]> (_internal st))
              (ctx_active st) (all_scopes st) ev) in
     if negb (truthy cfg)
     then (update_scope (cancel err) (uid scope) st1, @inl _ jsval (cancel err scope))
     else (update_scope start (uid scope) st1, inl (start scope)))
    = (Reg (S (_counter st))
           (<[ref key := add_scope (S (_counter st)) (Plugin_resolve p)]> (_internal st))
           true
           (map (fun s => if decide (uid s = S (_counter st))
                          then (if truthy cfg then start else cancel err) s else s)
                (all_scopes st)
            ++ [(if truthy cfg then start else cancel err)
                  {| uid := S (_counter st); scope_config := cfg;
                     scope_plugin := ref key; scope_error := JUndefined;
                     cancelled := false; started := false |}])
           ev,
       inl ((if truthy cfg then start else cancel err)
              {| uid := S (_counter st); scope_config := cfg;
                 scope_plugin := ref key; scope_error := JUndefined;
                 cancelled := false; started := false |}))).
  { intros cfg err ev. unfold new_scope, update_scope.
    cbn [_counter _internal ctx_active all_scopes emitted uid].
    rewrite alter_insert_eq, Ha.
    destruct (truthy cfg); cbn [negb]; rewrite map_app; cbn [map uid];
      rewrite decide_True by reflexivity; reflexivity. }
  destruct (truthy error); [apply Hfin|].
  destruct (resolveConfig p config) as [config'|reason]; apply Hfin.
Qed.

(** C4: when the configuration transform of a plugin throws, [plugin] does
    not throw: it returns a scope that is among the scopes of the registry
    and of the stored entry of the plugin, that is cancelled with the thrown
    value as its error and is not started, and the thrown value is emitted
    as an ['internal/error'] event. *)
Theorem plugin_captures_config_failure p config error st f reason :
  valid_shape p ->
  ctx_active st = true ->
  truthy error = false ->
  or_else (p_Config p) (p_schema p) = JFunction f ->
  p_schema p <> JBool false ->
  call f config = inr reason ->
  exists st' scope,
    plugin p config error st = (st', inl scope)
    /\ scope ∈ all_scopes st'
    /\ (exists meta, get p st' = Some meta /\ uid scope ∈ scopes meta)
    /\ cancelled scope = true
    /\ scope_error scope = reason
    /\ started scope = false
    /\ emitted st' = emitted st ++ [("internal/error", reason)].
Proof.
  intros Hv Ha He Hs Hf Hc.
  destruct (resolve_valid p true Hv) as (key & Hr & Hk).
  pose proof (plugin_installs p config error st key Hr Ha) as Hp.
  rewrite He, (resolveConfig_throws p config f reason Hs Hf Hc) in Hp.
  cbn in Hp. rewrite Hp. eexists _, _. split; [reflexivity|].
  split; [apply elem_of_app; right; constructor|].
  split.
  { destruct (get_resolved p key true
                (Reg (S (_counter st))
                     (<[ref key := add_scope (S (_counter st)) (Plugin_resolve p)]>
                        (_internal st)) true
                     (map (fun s => if decide (uid s = S (_counter st))
                                    then cancel reason s else s) (all_scopes st)
                      ++ [cancel reason
                            {| uid := S (_counter st); scope_config := JNull;
                               scope_plugin := ref key; scope_error := JUndefined;
                               cancelled := false; started := false |}])
                     (emitted st ++ [("internal/error", reason)])) Hr Hk) as [Hg _].
    rewrite Hg. cbn. rewrite lookup_insert_eq. eexists. split; [reflexivity|].
    cbn. constructor. }
  repeat split.
Qed.

Lemma resolve_true_function p key :
  resolve p true = inl key -> typeof key = "function" /\ valid_shape p.
Proof.
  intros Hr. unfold resolve in Hr.
  destruct (bool_decide (typeof (self p) = "function")) eqn:Hf.
  - apply bool_decide_eq_true in Hf. injection Hr as <-. split; [exact Hf|now left].
  - destruct (isApplicable p) eqn:Ha; [|discriminate].
    apply isApplicable_true in Ha. injection Hr as <-. split; [apply Ha|now right].
Qed.

(** A call of [plugin] that returns a scope got past both checks. *)
Lemma plugin_returned p config error st st' scope :
  plugin p config error st = (st', inl scope) ->
  exists key, resolve p true = inl key /\ ctx_active st = true.
Proof.
  unfold Registry.plugin. destruct (resolve p true) as [key|e]; [|discriminate].
  destruct (ctx_active st); [eauto|discriminate].
Qed.

Lemma has_get p st : has p st = bool_decide (is_Some (get p st)).
Proof.
  assert (Hn : bool_decide (is_Some (@None Meta)) = false).
  { apply bool_decide_eq_false_2. intros [? ?]. discriminate. }
  unfold has, get. destruct (resolve p false) as [key|e]; [|now rewrite Hn].
  destruct (truthy key); [reflexivity|]. now rewrite Hn.
Qed.

(** C6, as the code has it: a function, a class included, is its own
    identity whether or not it exposes [apply]; an object that is not a
    function and exposes an [apply] function is identified by that function.
    [get], [has] and [delete] depend on a plugin reference only through this
    identity; registering the same reference again leaves the size of the
    registry as it is and replaces the entry under the same key; and after
    [delete] the reference is no longer found by [has] nor by [get]. *)
Theorem registry_is_keyed_by_resolved_function :
  (forall p a, typeof (self p) = "function" -> resolve p a = inl (self p))
  /\ (forall p a,
        typeof (self p) <> "function" -> is_object (self p) ->
        typeof (p_apply p) = "function" -> resolve p a = inl (p_apply p))
  /\ (forall p q st,
        resolve p false = resolve q false ->
        get p st = get q st /\ has p st = has q st /\ delete p st = delete q st)
  /\ (forall p c1 e1 c2 e2 st st1 s1 st2 s2,
        plugin p c1 e1 st = (st1, inl s1) ->
        plugin p c2 e2 st1 = (st2, inl s2) ->
        size st2 = size st1
        /\ get p st2 = Some (add_scope (uid s2) (Plugin_resolve p)))
  /\ (forall p st, has p (delete p st).1 = false /\ get p (delete p st).1 = None).
Proof.
  split; [|split; [|split; [|split]]].
  - intros p a Hf. unfold resolve. now rewrite bool_decide_eq_true_2.
  - intros p a Hf Ho Ha. unfold resolve. rewrite bool_decide_eq_false_2 by exact Hf.
    now rewrite (proj2 (isApplicable_true p) (conj Ho Ha)).
  - intros p q st H. unfold has, delete, get. rewrite H. repeat split.
  - intros p c1 e1 c2 e2 st st1 s1 st2 s2 H1 H2.
    destruct (plugin_returned _ _ _ _ _ _ H1) as (key & Hr & Ha).
    destruct (resolve_true_function p key Hr) as [Hk _].
    pose proof (plugin_installs p c1 e1 st key Hr Ha) as P1.
    rewrite H1 in P1. injection P1 as Hst1 _.
    assert (Ha1 : ctx_active st1 = true) by now rewrite Hst1.
    assert (Hin1 : is_Some (_internal st1 !! ref key)).
    { rewrite Hst1. cbn. rewrite lookup_insert_eq. eauto. }
    pose proof (plugin_installs p c2 e2 st1 key Hr Ha1) as P2.
    rewrite H2 in P2. injection P2 as Hst2 Hs2.
    split.
    + unfold size. rewrite Hst2. cbn. now apply map_size_insert_Some.
    + destruct (get_resolved p key true st2 Hr Hk) as [Hg _]. rewrite Hg, Hst2, Hs2.
      cbn. rewrite lookup_insert_eq.
      match goal with |- context [if ?b then start else _] => destruct b end;
        reflexivity.
  - intros p st.
    assert (Hg : get p (delete p st).1 = None).
    { unfold delete. destruct (get p st) as [meta|] eqn:Hget; [|exact Hget].
      unfold get in *. destruct (resolve p false) as [key|e]; [|discriminate].
      destruct (truthy key); [|discriminate]. cbn. apply lookup_delete_eq. }
    split; [|exact Hg]. rewrite has_get, Hg.
    apply bool_decide_eq_false_2. intros [? ?]. discriminate.
Qed.

End Facts.

(** *** Concrete plugins *)

(** A value with none of the properties the registry reads. *)
Definition bare (v : jsval) : Plugin :=
  {| self := v; p_name := JUndefined; p_apply := JUndefined; p_Config := JUndefined;
     p_schema := JUndefined; p_using := None; p_inject := None;
     p_reactive := JUndefined |}.

(** [function foo(ctx) {}] *)
Definition plain_function : Plugin :=
  {| self := JFunction 1; p_name := JString "foo"; p_apply := JUndefined;
     p_Config := JUndefined; p_schema := JUndefined; p_using := None;
     p_inject := None; p_reactive := JUndefined |}.

(** [{ apply(ctx) {} }] *)
Definition object_with_apply : Plugin :=
  {| self := JObject 5; p_name := JUndefined; p_apply := JFunction 2;
     p_Config := JUndefined; p_schema := JUndefined; p_using := None;
     p_inject := None; p_reactive := JUndefined |}.

(** [class Foo { static apply(ctx) {} }] *)
Definition class_with_apply : Plugin :=
  {| self := JFunction 3; p_name := JString "Foo"; p_apply := JFunction 4;
     p_Config := JUndefined; p_schema := JUndefined; p_using := None;
     p_inject := None; p_reactive := JUndefined |}.

(** A function whose [Config] is function 7. *)
Definition with_transform : Plugin :=
  {| self := JFunction 6; p_name := JString "bar"; p_apply := JUndefined;
     p_Config := JFunction 7; p_schema := JUndefined; p_using := None;
     p_inject := Some (InjectArray ["database"]); p_reactive := JUndefined |}.

(** Function 7 throws whatever it is given; every other function returns
    its argument. *)
Definition transform_throws (f : nat) (arg : jsval) : jsval + jsval :=
  if decide (f = 7) then inr (JError "invalid config") else inl arg.

Lemma plugin_validates_shape_witness :
  (exists message,
     plugin transform_throws (bare (JNumber 3)) JUndefined JUndefined create
     = (create, inr (JError message)))
  /\ (exists message,
        plugin transform_throws (bare JNull) JUndefined JUndefined create
        = (create, inr (JError message)))
  /\ resolve plain_function true = inl (JFunction 1)
  /\ resolve object_with_apply true = inl (JFunction 2).
Proof.
  split; [|split].
  - destruct (plugin_validates_shape transform_throws (bare (JNumber 3))) as [H _].
    destruct (H ltac:(intros [H'|[[H' _] _]]; discriminate) JUndefined JUndefined create)
      as (message & Hp & _).
    now exists message.
  - destruct (plugin_validates_shape transform_throws (bare JNull)) as [H _].
    destruct (H ltac:(intros [H'|[[_ H'] _]]; [discriminate|now apply H'])
                JUndefined JUndefined create) as (message & Hp & _).
    now exists message.
  - split; reflexivity.
Defined.

Lemma plugin_captures_config_failure_witness :
  exists st' scope,
    plugin transform_throws with_transform JUndefined JUndefined create = (st', inl scope)
    /\ scope ∈ all_scopes st'
    /\ (exists meta, get with_transform st' = Some meta /\ uid scope ∈ scopes meta)
    /\ cancelled scope = true
    /\ scope_error scope = JError "invalid config"
    /\ started scope = false
    /\ emitted st' = emitted create ++ [("internal/error", JError "invalid config")].
Proof.
  apply (plugin_captures_config_failure transform_throws with_transform
           JUndefined JUndefined create 7 (JError "invalid config")).
  - now left.
  - reflexivity.
  - reflexivity.
  - reflexivity.
  - discriminate.
  - reflexivity.
Defined.

(** C6 as stated fails for a class that exposes [apply]: the class is a
    function and is stored under its own identity, not under that of its
    [apply] function. *)
Lemma class_is_not_identified_by_apply :
  let st := (plugin transform_throws class_with_apply JUndefined JUndefined create).1 in
  typeof (p_apply class_with_apply) = "function"
  /\ resolve class_with_apply false = inl (self class_with_apply)
  /\ resolve class_with_apply false <> inl (p_apply class_with_apply)
  /\ is_Some (_internal st !! 3)
  /\ _internal st !! 4 = None.
Proof.
  cbn zeta. split; [reflexivity|]. split; [reflexivity|]. split; [discriminate|].
  split; [vm_compute; eauto | vm_compute; reflexivity].
Qed.

Lemma registry_is_keyed_by_resolved_function_witness :
  let st1 := (plugin transform_throws object_with_apply JUndefined JUndefined create).1 in
  let st2 := (plugin transform_throws object_with_apply (JNumber 1) JUndefined st1).1 in
  resolve plain_function false = inl (JFunction 1)
  /\ resolve object_with_apply false = inl (JFunction 2)
  /\ size st2 = size st1
  /\ has object_with_apply (delete object_with_apply st2).1 = false.
Proof.
  destruct (registry_is_keyed_by_resolved_function transform_throws)
    as (Hf & Ho & _ & Hr & Hd).
  split; [apply Hf; reflexivity|].
  split; [apply Ho; [discriminate | split; [reflexivity|discriminate] | reflexivity]|].
  split.
  - eapply (Hr object_with_apply JUndefined JUndefined (JNumber 1) JUndefined create).
    + vm_compute. reflexivity.
    + vm_compute. reflexivity.
  - apply Hd.
Defined.

End RegistryFacts.

(** * Properties of service binding *)

Module ServiceFacts.

Import JS Service.

(** The scope requires the service. *)
Definition requires (name : string) (s : EffectScope) : Prop :=
  inject s !! name = Some true.

(** Observations of a cancellation, and of a start. *)
Definition is_teardown (e : event) : Prop :=
  match e with
  | Ran _ _ | Cancelled _ => True
  | _ => False
  end.

Definition is_startup (e : event) : Prop :=
  match e with
  | Activated _ _ | Reported _ => True
  | _ => False
  end.

(** The plugin body of the scope is invoked among the observations. *)
Definition activated (id : nat) (es : list event) : Prop :=
  exists seen, Activated id seen ∈ es.

Lemma sweep_eq f name ss :
  sweep f name ss
  = (map (fun s => if watches name s then (f s).1 else s) ss,
     ss ≫= (fun s => if watches name s then (f s).2 else [])).
Proof.
  induction ss as [|s ss IH]; [reflexivity|].
  cbn [sweep]. rewrite IH, bind_cons. cbn [map].
  destruct (watches name s); [destruct (f s)|]; reflexivity.
Qed.

Lemma requires_watches name s :
  requires name s -> scope_status s <> Disposed -> watches name s = true.
Proof.
  unfold requires, watches. intros -> Hs.
  now rewrite bool_decide_eq_false_2.
Qed.

(** A watching scope still watches once it is cancelled. *)
Lemma watches_cancel name s :
  watches name s = true -> watches name (cancel s).1 = true.
Proof.
  unfold watches. cbn. intros H. apply andb_true_iff in H as [_ H].
  rewrite H. reflexivity.
Qed.

Lemma cancel_teardown s : Forall is_teardown (cancel s).2.
Proof.
  cbn. apply Forall_app. split; [|repeat constructor].
  apply Forall_forall. intros e He. apply list_elem_of_fmap in He as (d & -> & _).
  exact I.
Qed.

Lemma start_startup st s : Forall is_startup (start st s).2.
Proof.
  unfold start. destruct (ready st s); [|constructor].
  destruct (fails s); repeat constructor.
Qed.

Lemma start_activated st s id :
  activated id (start st s).2 <-> ready st s = true /\ id = uid s.
Proof.
  unfold activated, start. split.
  - intros [seen H]. destruct (ready st s); [|inversion H]. split; [reflexivity|].
    destruct (fails s); cbn in H.
    + apply elem_of_cons in H as [H|H]; [congruence|].
      apply list_elem_of_singleton in H. discriminate.
    + apply list_elem_of_singleton in H. congruence.
  - intros [-> ->]. eexists. destruct (fails s); cbn; constructor.
Qed.

Lemma sweep_events_Forall (P : event -> Prop)
    (f : EffectScope -> EffectScope * list event) name ss :
  (forall s, Forall P (f s).2) ->
  Forall P (ss ≫= (fun s => if watches name s then (f s).2 else [])).
Proof.
  intros Hf. apply Forall_forall. intros e He.
  apply list_elem_of_bind in He as (s & He & _).
  destruct (watches name s); [|inversion He].
  pose proof (Hf s) as HP. rewrite Forall_forall in HP. now apply HP.
Qed.

Lemma uid_injective (ss : list EffectScope) s s' :
  NoDup (uid <$> ss) -> s ∈ ss -> s' ∈ ss -> uid s = uid s' -> s = s'.
Proof.
  induction ss as [|x ss IH]; intros Hnd Hs Hs' Hu; [inversion Hs|].
  cbn in Hnd. apply NoDup_cons in Hnd as [Hx Hnd].
  apply elem_of_cons in Hs as [->|Hs]; apply elem_of_cons in Hs' as [->|Hs'].
  - reflexivity.
  - exfalso. apply Hx. rewrite Hu. now apply list_elem_of_fmap_2.
  - exfalso. apply Hx. rewrite <- Hu. now apply list_elem_of_fmap_2.
  - now apply IH.
Qed.

(** C1: writing a value that is reference-equal to the current value of a
    service changes nothing, so no scope is disposed or re-activated.
    Writing any other value, [null] and [undefined] included, lets observe
    first cancellations only, then the write, then starts only; every scope
    that requires the service and is not disposed is cancelled and all its
    disposables run before the write, and its plugin body is invoked after
    the write if and only if its required dependencies are satisfied by the
    new service table. *)
Theorem set_service_cascade name v st :
  (get name st = v -> set name v st = st)
  /\ (get name st <> v ->
      NoDup (uid <$> scopes st) ->
      exists before after,
        log (set name v st) = log st ++ before ++ [Written name v] ++ after
        /\ get name (set name v st) = v
        /\ Forall is_teardown before
        /\ Forall is_startup after
        /\ forall s,
             s ∈ scopes st -> requires name s -> scope_status s <> Disposed ->
             Cancelled (uid s) ∈ before
             /\ (forall d, d ∈ disposables s -> Ran (uid s) d ∈ before)
             /\ (activated (uid s) after <-> ready (store (set name v st)) s = true)).
Proof.
  split.
  - intros H. unfold set. now rewrite decide_True.
  - intros H Hnd. unfold set. rewrite decide_False by exact H.
    rewrite !sweep_eq. cbn [log store].
    set (store' := <[name := v]> (store st)).
    set (ss1 := map (fun s => if watches name s then (cancel s).1 else s) (scopes st)).
    eexists _, _. split; [reflexivity|].
    split; [unfold get; cbn; subst store'; now rewrite lookup_insert_eq|].
    split; [apply sweep_events_Forall, cancel_teardown|].
    split; [apply sweep_events_Forall, start_startup|].
    intros s Hs Hreq Hlive.
    pose proof (requires_watches name s Hreq Hlive) as Hw.
    assert (Hsub : forall e, e ∈ (cancel s).2 ->
              e ∈ scopes st ≫= (fun s => if watches name s then (cancel s).2 else [])).
    { intros e He. apply list_elem_of_bind. exists s. rewrite Hw. now split. }
    split; [apply Hsub; cbn; apply elem_of_app; right; constructor|].
    split.
    { intros d Hd. apply Hsub. cbn. apply elem_of_app. left.
      apply list_elem_of_fmap_2. apply list_elem_of_In, in_rev.
      rewrite List.rev_involutive. now apply list_elem_of_In. }
    split.
    + intros [seen Hact]. apply list_elem_of_bind in Hact as (s1 & Hact & Hs1).
      destruct (watches name s1) eqn:Hw1; [|inversion Hact].
      destruct (proj1 (start_activated store' s1 (uid s)) (ex_intro _ seen Hact))
        as [Hr Hu].
      subst ss1. apply list_elem_of_fmap in Hs1 as (s0 & -> & Hs0).
      assert (s = s0) as <-.
      { apply (uid_injective (scopes st)); [assumption..|].
        rewrite Hu. now destruct (watches name s0). }
      rewrite Hw in Hr. exact Hr.
    + intros Hr. unfold activated.
      assert (Hact : activated (uid s) (start store' (cancel s).1).2).
      { apply start_activated. split; [exact Hr|reflexivity]. }
      destruct Hact as [seen Hact]. exists seen.
      apply list_elem_of_bind. exists (cancel s).1.
      rewrite (watches_cancel name s Hw). split; [exact Hact|].
      subst ss1. apply (list_elem_of_fmap_2' _ _ s); [exact Hs|now rewrite Hw].
Qed.

(** *** The test 'dependency update' of [tests/service.spec.ts] *)

(** [app.using(['foo'], ...)]: scope 1 requires [foo]; its body registers
    one ['dispose'] listener, disposable 7. *)
Definition app : t :=
  install 1 {["foo" := true]} false [7] None (Kernel ∅ [] []).

(** How often the callback of the test and its dispose listener have run. *)
Definition callback_calls (st : t) : nat :=
  length (omap (fun e => match e with Activated id _ => Some id | _ => None end) (log st)).

Definition dispose_calls (st : t) : nat :=
  length (omap (fun e => match e with Ran id _ => Some id | _ => None end) (log st)).

(** [{ bar: 100 }] is object 1, [{ bar: 300 }] is object 2. *)
Definition app1 : t := set "foo" (JObject 1) app.
Definition app2 : t := set "foo" (JObject 1) app1.
Definition app3 : t := set "foo" (JObject 2) app2.
Definition app4 : t := set "foo" JNull app3.

Example dependency_update :
  (callback_calls app, dispose_calls app) = (0, 0)
  /\ (callback_calls app1, dispose_calls app1) = (1, 0)
  /\ (callback_calls app2, dispose_calls app2) = (1, 0)
  /\ (callback_calls app3, dispose_calls app3) = (2, 1)
  /\ (callback_calls app4, dispose_calls app4) = (2, 2)
  /\ log app3 = [Cancelled 1; Written "foo" (JObject 1); Activated 1 [("foo", JObject 1)];
                 Ran 1 7; Cancelled 1; Written "foo" (JObject 2);
                 Activated 1 [("foo", JObject 2)]].
Proof. vm_compute. repeat split. Qed.

(** Scope 1 as it is in [app1]: active, with its disposable registered. *)
Definition active_scope : EffectScope :=
  {| uid := 1; inject := {["foo" := true]}; reactive := false; registers := [7];
     fails := None; scope_status := Active; disposables := [7]; error := None |}.

Lemma set_service_cascade_witness :
  set "foo" (JObject 1) app1 = app1
  /\ exists before after,
       log (set "foo" (JObject 2) app1)
       = log app1 ++ before ++ [Written "foo" (JObject 2)] ++ after
       /\ Cancelled 1 ∈ before /\ Ran 1 7 ∈ before /\ activated 1 after.
Proof.
  split.
  - destruct (set_service_cascade "foo" (JObject 1) app1) as [H _].
    apply H. reflexivity.
  - destruct (set_service_cascade "foo" (JObject 2) app1) as [_ H].
    destruct H as (before & after & Hlog & _ & _ & _ & Hs).
    + vm_compute. discriminate.
    + vm_compute. apply NoDup_singleton.
    + exists before, after. split; [exact Hlog|].
      destruct (Hs active_scope) as (Hc & Hr & Ha).
      * vm_compute. constructor.
      * reflexivity.
      * discriminate.
      * split; [exact Hc|]. split; [apply Hr; constructor|].
        apply Ha. vm_compute. reflexivity.
Defined.

End ServiceFacts.

(** * More of the event bus: [before], and further properties *)

Module LifecycleMore.

Import Lifecycle LifecycleFacts.

(** The character ['/']. *)
Definition slash : Ascii.ascii := Ascii.ascii_of_nat 47.

(** [name.split('/')]: the segments between the slashes, at least one. *)
Fixpoint split (s : string) : list string :=
  match s with
  | EmptyString => [EmptyString]
  | String c rest =>
      if Ascii.eqb c slash then EmptyString :: split rest
      else
        match split rest with
        | seg :: segs => String c seg :: segs
        | [] => [String c EmptyString]
        end
  end.

(** [seg.join('/')] *)
Fixpoint join (segs : list string) : string :=
  match segs with
  | [] => EmptyString
  | [seg] => seg
  | seg :: rest => seg +:+ "/" +:+ join rest
  end.

(** [seg[seg.length - 1] = 'before-' + seg[seg.length - 1]] *)
Fixpoint prefix_last (segs : list string) : list string :=
  match segs with
  | [] => []
  | [seg] => ["before-" +:+ seg]
  | seg :: rest => seg :: prefix_last rest
  end.

(** The event name under which [before] registers, lines 168-170. *)
Definition before_name (name : string) : string :=
  join (prefix_last (split name)).

(** The name holds no slash. *)
Fixpoint no_slash (s : string) : bool :=
  match s with
  | EmptyString => true
  | String c rest => negb (Ascii.eqb c slash) && no_slash rest
  end.

(** *** The event name of [before] *)

Lemma append_cons x (a b : string) : String x a +:+ b = String x (a +:+ b).
Proof. reflexivity. Qed.

Lemma append_assoc (a b c : string) : (a +:+ b) +:+ c = a +:+ (b +:+ c).
Proof.
  induction a as [|x a IH]; [reflexivity|]. now rewrite !append_cons, IH.
Qed.

Lemma length_append (a b : string) :
  String.length (a +:+ b) = String.length a + String.length b.
Proof.
  induction a as [|x a IH]; [reflexivity|]. rewrite append_cons. simpl. now rewrite IH.
Qed.

Lemma split_nonempty s : split s <> [].
Proof.
  destruct s as [|c s]; simpl; [discriminate|].
  destruct (Ascii.eqb c slash); [discriminate|]. destruct (split s); discriminate.
Qed.

Lemma prefix_last_nonempty segs : segs <> [] -> prefix_last segs <> [].
Proof. destruct segs as [|a [|b r]]; simpl; congruence. Qed.

Lemma join_cons seg segs :
  segs <> [] -> join (seg :: segs) = seg +:+ "/" +:+ join segs.
Proof. destruct segs; [congruence|reflexivity]. Qed.

Lemma join_cons_char c seg segs :
  join (String c seg :: segs) = String c (join (seg :: segs)).
Proof. destruct segs; reflexivity. Qed.

(** Joining the segments of a name gives the name back. *)
Lemma join_split s : join (split s) = s.
Proof.
  induction s as [|c s IH]; [reflexivity|]. simpl.
  destruct (Ascii.eqb c slash) eqn:Hc.
  - apply Ascii.eqb_eq in Hc as ->.
    rewrite join_cons by apply split_nonempty. now rewrite IH.
  - pose proof (split_nonempty s) as Hne. destruct (split s) as [|seg segs]; [congruence|].
    rewrite join_cons_char. now rewrite IH.
Qed.

Lemma split_app dir base :
  split (dir +:+ String slash base) = split dir ++ split base.
Proof.
  induction dir as [|c dir IH]; [reflexivity|]. simpl.
  destruct (Ascii.eqb c slash); rewrite IH; [reflexivity|].
  pose proof (split_nonempty dir) as Hne. destruct (split dir); [congruence|reflexivity].
Qed.

Lemma split_no_slash base : no_slash base = true -> split base = [base].
Proof.
  induction base as [|c base IH]; [reflexivity|]. simpl. intros H.
  apply andb_true_iff in H as [Hc Hb]. apply negb_true_iff in Hc. rewrite Hc.
  now rewrite (IH Hb).
Qed.

Lemma prefix_last_app l1 l2 :
  l2 <> [] -> prefix_last (l1 ++ l2) = l1 ++ prefix_last l2.
Proof.
  intros H2. induction l1 as [|a l1 IH]; [reflexivity|]. simpl.
  destruct (l1 ++ l2) as [|b r] eqn:E.
  - destruct l1; [simpl in E; congruence|discriminate].
  - now rewrite IH.
Qed.

Lemma join_snoc l x : l <> [] -> join (l ++ [x]) = join l +:+ "/" +:+ x.
Proof.
  induction l as [|a l IH]; [congruence|]. intros _.
  destruct l as [|b r]; [reflexivity|].
  change ((a :: b :: r) ++ [x]) with (a :: ((b :: r) ++ [x])).
  rewrite join_cons by (destruct r; discriminate).
  rewrite IH by discriminate. rewrite (join_cons a (b :: r)) by discriminate.
  now rewrite !append_assoc.
Qed.

Lemma length_before_name name :
  String.length (before_name name) = 7 + String.length name.
Proof.
  unfold before_name. rewrite <- (join_split name) at 2.
  pose proof (split_nonempty name) as Hne.
  induction (split name) as [|seg segs IH]; [congruence|].
  destruct segs as [|b r]; [reflexivity|].
  change (prefix_last (seg :: b :: r)) with (seg :: prefix_last (b :: r)).
  rewrite join_cons by (apply prefix_last_nonempty; discriminate).
  rewrite (join_cons seg (b :: r)) by discriminate.
  rewrite !length_append, IH by discriminate. lia.
Qed.

Lemma before_name_not_special name :
  before_name name <> "ready" /\ before_name name <> "dispose".
Proof.
  pose proof (length_before_name name) as Hl. split; intros E.
  - rewrite E in Hl. simpl in Hl. lia.
  - rewrite E in Hl. simpl in Hl.
    destruct name; [discriminate E|simpl in Hl; lia].
Qed.

(** X1: [before] prefixes the last segment of the event name with [before-]:
    a name without a slash as a whole, a name [dir/base] in its [base]; and
    the result is never ['ready'] nor ['dispose']. *)
Theorem before_prefixes_last_segment :
  (forall base, no_slash base = true -> before_name base = "before-" +:+ base)
  /\ (forall dir base,
        no_slash base = true ->
        before_name (dir +:+ "/" +:+ base) = dir +:+ "/before-" +:+ base)
  /\ (forall name, before_name name <> "ready" /\ before_name name <> "dispose").
Proof.
  split; [|split].
  - intros base Hb. unfold before_name. now rewrite split_no_slash.
  - intros dir base Hb. unfold before_name.
    change ("/" +:+ base) with (String slash base).
    rewrite split_app, (split_no_slash base Hb).
    rewrite prefix_last_app by discriminate. cbn [prefix_last].
    rewrite join_snoc by apply split_nonempty. now rewrite join_split.
  - apply before_name_not_special.
Qed.

Lemma before_prefixes_last_segment_witness :
  before_name "custom" = "before-custom"
  /\ before_name "internal/service" = "internal/before-service"
  /\ before_name "a/b/" = "a/b/before-".
Proof.
  destruct before_prefixes_last_segment as (Hb & Hd & _).
  split; [apply Hb; reflexivity|].
  split; [apply (Hd "internal" "service"); reflexivity|].
  apply (Hd "a/b" EmptyString). reflexivity.
Defined.

Section More.

Variable state_of : ctx -> scope.
Variable matches : ctx -> option session -> bool.
Variable bodies : lid -> option session -> list value -> body.

(** [before], lines 167-171. *)
Definition before (caller : ctx) (name : string) (listener : lid) (append : bool)
    (st : t) : t * disposer :=
  Lifecycle.on state_of caller (before_name name) listener (negb append) st.


Local Abbreviation on := (Lifecycle.on state_of).
Local Abbreviation off := (Lifecycle.off).
Local Abbreviation invoke := (Lifecycle.invoke state_of bodies).
Local Abbreviation getHooks := (Lifecycle.getHooks matches).
Local Abbreviation parallel := (Lifecycle.parallel state_of matches bodies).
Local Abbreviation serial := (Lifecycle.serial state_of matches bodies).
Local Abbreviation serial_loop := (Lifecycle.serial_loop state_of bodies).
Local Abbreviation bail := (Lifecycle.bail state_of matches bodies).
Local Abbreviation bail_loop := (Lifecycle.bail_loop state_of bodies).
Local Abbreviation chain := (Lifecycle.chain state_of matches bodies).
Local Abbreviation chain_loop := (Lifecycle.chain_loop state_of bodies).
Local Abbreviation waterfall := (Lifecycle.waterfall state_of matches bodies).
Local Abbreviation waterfall_loop := (Lifecycle.waterfall_loop state_of bodies).
Local Abbreviation run_task := (Lifecycle.run_task state_of bodies).
Local Abbreviation run_tasks := (Lifecycle.run_tasks state_of bodies).
Local Abbreviation flush := (Lifecycle.flush state_of bodies).
Local Abbreviation start_loop := (Lifecycle.start_loop state_of bodies).
Local Abbreviation start := (Lifecycle.start state_of matches bodies).

(** *** Registering and removing hooks *)

(** The state [on] leaves for an event name it does not treat specially. *)
Lemma on_ordinary caller name l p st :
  name <> "dispose" -> ~ (name = "ready" /\ isActive st = true) ->
  let st1 :=
    match maxListeners (config st) with
    | Some max =>
        if (max <=? Z.of_nat (length (hooks_of name st)))%Z
        then warn (WMaxListeners max name) st else st
    | None => st
    end in
  (on caller name l p st).1
  = set_disposables
      (<[state_of caller := disposables_of (state_of caller) st ++ [DUnhook name l]]>
         (disposables st))
      (set_hooks (<[name := add p (caller, l) (hooks_of name st)]> (_hooks st)) st1).
Proof.
  intros Hd Hr. unfold Lifecycle.on.
  destruct (bool_decide (name = "ready") && isActive st) eqn:Hb.
  { apply andb_true_iff in Hb as [Hn Ha]. apply bool_decide_eq_true in Hn.
    exfalso. apply Hr. now split. }
  destruct (decide (name = "dispose")); [contradiction|]. cbn [fst].
  destruct (maxListeners (config st)) as [max|]; [|reflexivity].
  destruct (max <=? _)%Z; reflexivity.
Qed.

Lemma hooks_of_other name n hs (h : gmap string (list (ctx * lid))) st :
  n <> name -> hooks_of n (set_hooks (<[name := hs]> h) st) = default [] (h !! n).
Proof. intros Hn. unfold hooks_of. cbn. now rewrite lookup_insert_ne. Qed.

(** X3: Below the configured maximum, or without one, [on] logs nothing; for an
    ordinary event name it changes the hook list of that name and the
    disposables of the calling scope, and nothing else. *)
Theorem on_registers_without_warning caller name l p st :
  name <> "dispose" -> ~ (name = "ready" /\ isActive st = true) ->
  match maxListeners (config st) with
  | Some max => (Z.of_nat (length (hooks_of name st)) < max)%Z
  | None => True
  end ->
  let st' := (on caller name l p st).1 in
  warnings st' = warnings st
  /\ hooks_of name st' = add p (caller, l) (hooks_of name st)
  /\ (forall n, n <> name -> hooks_of n st' = hooks_of n st)
  /\ disposables_of (state_of caller) st'
     = disposables_of (state_of caller) st ++ [DUnhook name l]
  /\ (forall s, s <> state_of caller -> disposables_of s st' = disposables_of s st)
  /\ _tasks st' = _tasks st /\ trace st' = trace st /\ isActive st' = isActive st.
Proof.
  intros Hd Hr Hmax st'. subst st'. rewrite on_ordinary by assumption.
  assert (Hst1 : match maxListeners (config st) with
                 | Some max =>
                     if (max <=? Z.of_nat (length (hooks_of name st)))%Z
                     then warn (WMaxListeners max name) st else st
                 | None => st
                 end = st).
  { destruct (maxListeners (config st)) as [max|]; [|reflexivity].
    now rewrite (proj2 (Z.leb_gt _ _) Hmax). }
  rewrite Hst1. cbn. repeat split.
  - unfold hooks_of. cbn. now rewrite lookup_insert_eq.
  - intros n Hn. unfold hooks_of. cbn. now rewrite lookup_insert_ne.
  - unfold disposables_of at 1. cbn. now rewrite lookup_insert_eq.
  - intros s Hs. unfold disposables_of. cbn. now rewrite lookup_insert_ne.
Qed.

Lemma findIndex_None caller l hs :
  findIndex caller l hs = None <-> (caller, l) ∉ hs.
Proof.
  induction hs as [|[c cb] hs IH]; simpl.
  - split; [intros _; apply not_elem_of_nil|reflexivity].
  - destruct (decide (c = caller /\ cb = l)) as [[-> ->]|Hne].
    + split; [discriminate|]. intros H. exfalso. apply H. constructor.
    + rewrite not_elem_of_cons. destruct (findIndex caller l hs); cbn.
      * split; [discriminate|]. intros [_ H]. now apply IH in H.
      * split; [|reflexivity]. intros _. split; [|now apply IH].
        intros E. apply Hne. now injection E as -> ->.
Qed.

Lemma findIndex_first caller l pre post :
  (caller, l) ∉ pre ->
  findIndex caller l (pre ++ (caller, l) :: post) = Some (length pre).
Proof.
  induction pre as [|[c cb] pre IH]; intros Hpre; simpl.
  - now rewrite decide_True.
  - apply not_elem_of_cons in Hpre as [Hne Hpre].
    rewrite decide_False by (intros [-> ->]; congruence).
    now rewrite (IH Hpre).
Qed.

(** X4: [off] removes the first hook that the calling context registered with
    the listener and answers [true]; the other hooks, the other event names
    and the disposables stay as they are.  When the calling context has no
    such hook, also when another context registered the listener, [off]
    changes nothing and answers [undefined]. *)
Theorem off_removes_first_registration caller name l st :
  ((caller, l) ∉ hooks_of name st -> off caller name l st = (st, false))
  /\ (forall pre post,
        hooks_of name st = pre ++ (caller, l) :: post -> (caller, l) ∉ pre ->
        let st' := (off caller name l st).1 in
        (off caller name l st).2 = true
        /\ hooks_of name st' = pre ++ post
        /\ (forall n, n <> name -> hooks_of n st' = hooks_of n st)
        /\ disposables st' = disposables st /\ _tasks st' = _tasks st
        /\ warnings st' = warnings st /\ trace st' = trace st).
Proof.
  split.
  - intros H. unfold Lifecycle.off. now rewrite (proj2 (findIndex_None _ _ _) H).
  - intros pre post Hh Hpre st'. subst st'. unfold Lifecycle.off.
    rewrite Hh, (findIndex_first caller l pre post Hpre), delete_middle. cbn.
    repeat split.
    + unfold hooks_of. cbn. now rewrite lookup_insert_eq.
    + intros n Hn. unfold hooks_of. cbn. now rewrite lookup_insert_ne.
Qed.

(** X5: [off] undoes [on]: after registering a listener for an ordinary event
    name, at the front, or at the end when the calling context had not
    registered it before, [off] answers [true] and the hook list is what it
    was. *)
Theorem off_undoes_on caller name l p st :
  name <> "dispose" -> ~ (name = "ready" /\ isActive st = true) ->
  p = true \/ (caller, l) ∉ hooks_of name st ->
  let st' := (on caller name l p st).1 in
  (off caller name l st').2 = true
  /\ hooks_of name (off caller name l st').1 = hooks_of name st.
Proof.
  intros Hd Hr Hp st'.
  assert (Hh : hooks_of name st' = add p (caller, l) (hooks_of name st)).
  { subst st'. rewrite on_ordinary by assumption. unfold hooks_of at 1. cbn.
    now rewrite lookup_insert_eq. }
  assert (Hsplit : exists pre post,
            hooks_of name st' = pre ++ (caller, l) :: post
            /\ ((caller, l) ∉ pre) /\ pre ++ post = hooks_of name st).
  { rewrite Hh. destruct p; cbn.
    - exists [], (hooks_of name st). repeat split. apply not_elem_of_nil.
    - destruct Hp as [|Hp]; [discriminate|].
      exists (hooks_of name st), []. rewrite app_nil_r. now repeat split. }
  destruct Hsplit as (pre & post & Hst' & Hpre & Heq).
  unfold Lifecycle.off.
  rewrite Hst', (findIndex_first caller l pre post Hpre), delete_middle. cbn.
  split; [reflexivity|]. unfold hooks_of. cbn. now rewrite lookup_insert_eq.
Qed.

(** X2: [before] never takes the paths of ['ready'] and ['dispose']: it puts the
    listener in the hook list of the prefixed name, at the front unless
    [append] is set, also for [before('ready', ...)] on an active bus. *)
Theorem before_registers_a_hook caller name l append st :
  let st' := (before caller name l append st).1 in
  hooks_of (before_name name) st'
  = (if append
     then hooks_of (before_name name) st ++ [(caller, l)]
     else (caller, l) :: hooks_of (before_name name) st)
  /\ _tasks st' = _tasks st
  /\ disposables_of (state_of caller) st'
     = disposables_of (state_of caller) st ++ [DUnhook (before_name name) l].
Proof.
  intros st'. subst st'. unfold before.
  destruct (before_name_not_special name) as [Hr Hd].
  rewrite on_ordinary by (try assumption; intros [E _]; contradiction).
  destruct (maxListeners (config st)) as [max|];
    [destruct (max <=? Z.of_nat (length (hooks_of (before_name name) st)))%Z|];
    (split;
     [unfold hooks_of at 1; cbn; rewrite lookup_insert_eq; now destruct append
     |split; [reflexivity
             |unfold disposables_of at 1; cbn; now rewrite lookup_insert_eq]]).
Qed.

(** *** Errors in sequential dispatch *)

Lemma bail_loop_throw sess args pre : forall st cb post e,
  Forall (passes bodies sess args) pre ->
  result (bodies cb sess args) = Throw e ->
  (bail_loop (pre ++ cb :: post) sess args st).2 = Throw e
  /\ invoked (trace (bail_loop (pre ++ cb :: post) sess args st).1)
     = invoked (trace st) ++ pre ++ [cb].
Proof.
  induction pre as [|h pre IH]; intros st cb post e Hpre Hcb.
  - cbn [app Lifecycle.bail_loop]. rewrite invoke_eq, Hcb. cbn [fst snd].
    split; [reflexivity|]. now rewrite invoke_calls.
  - inversion Hpre as [|? ? (u & Hu & Hnb) Hpre']; subst.
    cbn [app Lifecycle.bail_loop]. rewrite invoke_eq, Hu, (not_bailed u Hnb).
    destruct (IH (invoke h sess args st).1 cb post e Hpre' Hcb) as [Hr Ht].
    split; [exact Hr|]. rewrite Ht, invoke_calls. cbn. now rewrite <- app_assoc.
Qed.

(** The callback throws, or returns a promise that rejects. *)
Definition fails_with (sess : option session) (args : list value) (e : value)
    (h : lid) : Prop :=
  result (bodies h sess args) = Throw e
  \/ exists u, result (bodies h sess args) = Return u /\ settle_of u = Rejected e.

Lemma serial_loop_fail sess args pre : forall st cb post e,
  Forall (passes_awaited bodies sess args) pre ->
  fails_with sess args e cb ->
  (serial_loop (pre ++ cb :: post) sess args st).2 = Rejected e
  /\ invoked (trace (serial_loop (pre ++ cb :: post) sess args st).1)
     = invoked (trace st) ++ pre ++ [cb].
Proof.
  induction pre as [|h pre IH]; intros st cb post e Hpre Hcb.
  - cbn [app Lifecycle.serial_loop]. destruct Hcb as [Hcb|(u & Hcb & Hu)].
    + rewrite invoke_eq, Hcb. cbn [fst snd]. split; [reflexivity|].
      now rewrite invoke_calls.
    + rewrite invoke_eq, Hcb, awaited_eq, Hu. cbn [fst snd]. split; [reflexivity|].
      now rewrite awaited_calls, invoke_calls.
  - inversion Hpre as [|? ? (w & r & Hw & Hr & Hnb) Hpre']; subst.
    cbn [app Lifecycle.serial_loop].
    rewrite invoke_eq, Hw, awaited_eq, Hr, (not_bailed r Hnb).
    destruct (IH (Lifecycle.awaited state_of w (invoke h sess args st).1).1
                cb post e Hpre' Hcb) as [Hres Ht].
    split; [exact Hres|].
    rewrite Ht, awaited_calls, invoke_calls. cbn. now rewrite <- app_assoc.
Qed.

(** X6: A hook that throws stops [bail], which throws the same value; a hook
    that throws or whose promise rejects stops [serial], which rejects with
    that value.  The hooks registered after it are not called. *)
Theorem bail_and_serial_stop_at_a_failing_hook sess name args st :
  (forall pre cb post e,
     getHooks name sess st = pre ++ cb :: post ->
     Forall (passes bodies sess args) pre ->
     result (bodies cb sess args) = Throw e ->
     (bail sess name args st).2 = Throw e
     /\ invoked (trace (bail sess name args st).1) = invoked (trace st) ++ pre ++ [cb])
  /\ (forall pre cb post e,
        getHooks name sess st = pre ++ cb :: post ->
        Forall (passes_awaited bodies sess args) pre ->
        fails_with sess args e cb ->
        (serial sess name args st).2 = Rejected e
        /\ invoked (trace (serial sess name args st).1)
           = invoked (trace st) ++ pre ++ [cb]).
Proof.
  unfold Lifecycle.bail, Lifecycle.serial. split.
  - intros pre cb post e H Hpre Hcb. rewrite H. now apply bail_loop_throw.
  - intros pre cb post e H Hpre Hcb. rewrite H. now apply serial_loop_fail.
Qed.

(** *** How [chain] and [waterfall] thread their first argument *)

(** The arguments after the hooks of [cbs] have run in a [chain]: each
    result replaces the first argument. *)
Fixpoint chain_args (sess : option session) (cbs : list lid) (args : list value)
    : list value :=
  match cbs with
  | [] => args
  | h :: rest => chain_args sess rest (set_first (returned bodies sess args h) args)
  end.

(** The calls a [chain] makes, each with the arguments it is given. *)
Fixpoint chain_calls (sess : option session) (cbs : list lid) (args : list value)
    : list event :=
  match cbs with
  | [] => []
  | h :: rest =>
      Invoked h sess args
      :: chain_calls sess rest (set_first (returned bodies sess args h) args)
  end.

Lemma chain_loop_threads sess cbs : forall args st,
  Forall (fun h => forall a, returns bodies sess a h) cbs ->
  (chain_loop cbs sess args st).2 = Return (first (chain_args sess cbs args))
  /\ trace (chain_loop cbs sess args st).1 = trace st ++ chain_calls sess cbs args.
Proof.
  induction cbs as [|cb cbs IH]; intros args st Hall.
  - cbn. now rewrite app_nil_r.
  - inversion Hall as [|? ? Hcb Hall']; subst. destruct (Hcb args) as [v Hv].
    cbn [Lifecycle.chain_loop chain_args chain_calls].
    rewrite invoke_eq, Hv, (returned_Return bodies sess args cb v Hv).
    destruct (IH (set_first v args) (invoke cb sess args st).1 Hall') as [Hr Ht].
    split; [exact Hr|]. rewrite Ht, invoke_trace. now rewrite <- app_assoc.
Qed.

Lemma chain_args_tail sess cbs : forall args,
  tail (chain_args sess cbs args) = tail args.
Proof.
  induction cbs as [|cb cbs IH]; intros args; [reflexivity|].
  cbn [chain_args]. now rewrite IH.
Qed.

(** X7: Without a matching hook [chain] returns its first argument and leaves
    the bus as it is.  When no hook throws, each hook is called with the
    result of the one before it as first argument and the other arguments as
    they were given, and [chain] returns the result of the last hook. *)
Theorem chain_threads_the_first_argument sess name args st :
  (getHooks name sess st = [] -> chain sess name args st = (st, Return (first args)))
  /\ (Forall (fun h => forall a, returns bodies sess a h) (getHooks name sess st) ->
      (chain sess name args st).2
      = Return (first (chain_args sess (getHooks name sess st) args))
      /\ trace (chain sess name args st).1
         = trace st ++ chain_calls sess (getHooks name sess st) args
      /\ tail (chain_args sess (getHooks name sess st) args) = tail args).
Proof.
  unfold Lifecycle.chain. split.
  - now intros ->.
  - intros Hall. destruct (chain_loop_threads sess _ args st Hall) as [Hr Ht].
    split; [exact Hr|]. split; [exact Ht|apply chain_args_tail].
Qed.

(** The arguments after the hooks of [cbs] have run in a [waterfall]: each
    awaited result replaces the first argument. *)
Fixpoint waterfall_args (sess : option session) (cbs : list lid) (args : list value)
    : list value :=
  match cbs with
  | [] => args
  | h :: rest =>
      match settle_of (returned bodies sess args h) with
      | Resolved r => waterfall_args sess rest (set_first r args)
      | Rejected _ | Pending => args
      end
  end.

(** The callback returns a value or a promise that is fulfilled. *)
Definition fulfils (sess : option session) (args : list value) (h : lid) : Prop :=
  exists u r, result (bodies h sess args) = Return u /\ settle_of u = Resolved r.

Lemma waterfall_loop_threads sess cbs : forall args st,
  Forall (fun h => forall a, fulfils sess a h) cbs ->
  (waterfall_loop cbs sess args st).2
  = settle_of (first (waterfall_args sess cbs args))
  /\ invoked (trace (waterfall_loop cbs sess args st).1) = invoked (trace st) ++ cbs.
Proof.
  induction cbs as [|cb cbs IH]; intros args st Hall.
  - cbn [Lifecycle.waterfall_loop waterfall_args].
    rewrite await_settle, await_trace. now rewrite app_nil_r.
  - inversion Hall as [|? ? Hcb Hall']; subst. destruct (Hcb args) as (u & r & Hu & Hr).
    cbn [Lifecycle.waterfall_loop waterfall_args].
    rewrite invoke_eq, Hu, awaited_eq, (returned_Return bodies sess args cb u Hu), Hr.
    destruct (IH (set_first r args)
                (Lifecycle.awaited state_of u (invoke cb sess args st).1).1 Hall')
      as [Hres Ht].
    split; [exact Hres|].
    rewrite Ht, awaited_calls, invoke_calls. now rewrite <- app_assoc.
Qed.

Lemma waterfall_loop_reject sess : forall pre args st cb post e,
  Forall (fun h => forall a, fulfils sess a h) pre ->
  fails_with sess (waterfall_args sess pre args) e cb ->
  (waterfall_loop (pre ++ cb :: post) sess args st).2 = Rejected e
  /\ invoked (trace (waterfall_loop (pre ++ cb :: post) sess args st).1)
     = invoked (trace st) ++ pre ++ [cb].
Proof.
  induction pre as [|h pre IH]; intros args st cb post e Hpre Hcb.
  - cbn [app Lifecycle.waterfall_loop waterfall_args] in *.
    destruct Hcb as [Hcb|(u & Hcb & Hu)].
    + rewrite invoke_eq, Hcb. cbn [fst snd]. split; [reflexivity|].
      now rewrite invoke_calls.
    + rewrite invoke_eq, Hcb, awaited_eq, Hu. cbn [fst snd]. split; [reflexivity|].
      now rewrite awaited_calls, invoke_calls.
  - inversion Hpre as [|? ? Hh Hpre']; subst. destruct (Hh args) as (u & r & Hu & Hr).
    cbn [app Lifecycle.waterfall_loop waterfall_args] in *.
    rewrite (returned_Return bodies sess args h u Hu), Hr in Hcb.
    rewrite invoke_eq, Hu, awaited_eq, Hr.
    destruct (IH (set_first r args)
                (Lifecycle.awaited state_of u (invoke h sess args st).1).1
                cb post e Hpre' Hcb) as [Hres Ht].
    split; [exact Hres|].
    rewrite Ht, awaited_calls, invoke_calls. cbn. now rewrite <- app_assoc.
Qed.

(** X8: [waterfall] awaits the result of each hook and feeds it to the next one
    as first argument; it resolves with the last awaited result, or with
    what awaiting its first argument yields when no hook matches.  A hook
    that throws or whose promise rejects makes [waterfall] reject with that
    value, the later hooks not being called. *)
Theorem waterfall_awaits_and_threads sess name args st :
  (Forall (fun h => forall a, fulfils sess a h) (getHooks name sess st) ->
   (waterfall sess name args st).2
   = settle_of (first (waterfall_args sess (getHooks name sess st) args))
   /\ invoked (trace (waterfall sess name args st).1)
      = invoked (trace st) ++ getHooks name sess st)
  /\ (forall pre cb post e,
        getHooks name sess st = pre ++ cb :: post ->
        Forall (fun h => forall a, fulfils sess a h) pre ->
        fails_with sess (waterfall_args sess pre args) e cb ->
        (waterfall sess name args st).2 = Rejected e
        /\ invoked (trace (waterfall sess name args st).1)
           = invoked (trace st) ++ pre ++ [cb]).
Proof.
  unfold Lifecycle.waterfall. split.
  - apply waterfall_loop_threads.
  - intros pre cb post e H Hpre Hcb. rewrite H. now apply waterfall_loop_reject.
Qed.

(** *** The session filter *)

(** Every listener called between [st] and [st'] is a hook of [name] whose
    context matches the session. *)
Definition only_matching (name : string) (sess : option session) (st st' : t) : Prop :=
  exists called,
    invoked (trace st') = invoked (trace st) ++ called
    /\ forall l, l ∈ called ->
         exists c, (c, l) ∈ hooks_of name st /\ matches c sess = true.

Lemma getHooks_matching name sess st l :
  l ∈ getHooks name sess st ->
  exists c, (c, l) ∈ hooks_of name st /\ matches c sess = true.
Proof.
  unfold Lifecycle.getHooks. intros H.
  apply list_elem_of_fmap in H as ([c l'] & -> & H).
  apply list_elem_of_In, List.filter_In in H as [H Hm].
  exists c. split; [now apply list_elem_of_In|exact Hm].
Qed.

Lemma prefix_only_matching name sess st st' :
  calls_prefix_of (getHooks name sess st) st st' -> only_matching name sess st st'.
Proof.
  intros [k Hk]. exists (take k (getHooks name sess st)). split; [exact Hk|].
  intros l Hl. apply getHooks_matching. now apply (subseteq_take k).
Qed.

(** X9: No dispatch calls a listener through a hook whose context does not match
    the session: the listeners called are hooks of the event name registered
    by matching contexts. *)
Theorem dispatch_calls_only_matching_hooks sess name args st :
  only_matching name sess st (parallel sess name args st).1
  /\ only_matching name sess st (serial sess name args st).1
  /\ only_matching name sess st (bail sess name args st).1
  /\ only_matching name sess st (chain sess name args st).1
  /\ only_matching name sess st (waterfall sess name args st).1.
Proof.
  split; [|split; [|split; [|split]]]; apply prefix_only_matching.
  - unfold Lifecycle.parallel.
    pose proof (parallel_loop_prefix state_of bodies (getHooks name sess st)
                  sess args [] st) as [k Hk].
    destruct (Lifecycle.parallel_loop _ _ _ _ _ _ _) as [st1 [tasks|e]]; cbn [fst] in *.
    + exists k. now rewrite fold_settle_trace, invoked_app, invoked_Settled, app_nil_r.
    + now exists k.
  - apply serial_loop_prefix.
  - apply bail_loop_prefix.
  - apply chain_loop_prefix.
  - apply waterfall_loop_prefix.
Qed.

(** *** Parallel dispatch and the task queue *)

(** X10: When no callback throws on being called, [parallel] calls every hook of
    the snapshot and logs the reason of every rejection as a warning.  When
    every returned promise settles it waits for all of them, one settlement
    per hook, and resolves with [undefined]; when a hook returns a promise
    that stays pending, [parallel] never settles. *)
Theorem parallel_logs_rejections_and_resolves sess name args st :
  Forall (returns bodies sess args) (getHooks name sess st) ->
  let st' := (parallel sess name args st).1 in
  invoked (trace st') = invoked (trace st) ++ getHooks name sess st
  /\ (forall h e, h ∈ getHooks name sess st ->
        settle_of (returned bodies sess args h) = Rejected e ->
        WError e ∈ warnings st')
  /\ (all_settle bodies sess args (getHooks name sess st) ->
      (parallel sess name args st).2 = Resolved VUndefined
      /\ settlements (trace st')
         = settlements (trace st) + length (getHooks name sess st))
  /\ (forall h, h ∈ getHooks name sess st ->
        pending (returned bodies sess args h) = true ->
        (parallel sess name args st).2 = Pending).
Proof.
  intros Hall st'.
  destruct (parallel_calls_all state_of matches bodies sess name args st Hall)
    as (Hr & _ & Hi & Hw).
  split; [exact Hi|]. split; [exact Hw|]. split.
  - intros Hset.
    destruct (parallel_awaits_all state_of matches bodies sess name args st Hall Hset)
      as (Hres & _ & Hn & _).
    now split.
  - intros h Hh Hp. rewrite Hr.
    assert (He : existsb pending (map (returned bodies sess args) (getHooks name sess st))
                 = true).
    { apply existsb_exists. exists (returned bodies sess args h). split; [|exact Hp].
      apply list_elem_of_In. now apply list_elem_of_fmap_2. }
    now rewrite He.
Qed.

Lemma run_task_warns k e st :
  match k with
  | TValue v => settle_of v = Rejected e
  | TDeferred l => fails_with None [] e l
  end ->
  WError e ∈ warnings (run_task k st).
Proof.
  intros Hk. rewrite run_task_eq. cbn [warnings set_tasks].
  destruct k as [v|l]; cbn [ran].
  - now apply settle_task_warns.
  - destruct Hk as [Hl|(u & Hl & Hu)]; rewrite Hl.
    + cbn. list_mem.
    + now apply settle_task_warns.
Qed.

Lemma run_tasks_warns ts : forall st k e,
  k ∈ ts ->
  match k with
  | TValue v => settle_of v = Rejected e
  | TDeferred l => fails_with None [] e l
  end ->
  WError e ∈ warnings (run_tasks ts st).
Proof.
  induction ts as [|k' ts IH]; intros st k e Hk He; [inversion Hk|].
  cbn [Lifecycle.run_tasks fold_left].
  change (WError e ∈ warnings (run_tasks ts (run_task k' st))).
  apply elem_of_cons in Hk as [->|Hk].
  - apply (proj2 (run_tasks_extends state_of matches bodies ts (run_task k' st))).
    now apply run_task_warns.
  - now apply (IH _ k e).
Qed.

(** X11: The task queue logs failures and goes on: when [flush] returns, the
    reason of every queued promise that rejected, and what every deferred
    ['ready'] listener threw or rejected with, is among the warnings. *)
Theorem flush_logs_failed_tasks fuel st st' :
  flush fuel st = Some st' ->
  (forall v e, TValue v ∈ _tasks st -> settle_of v = Rejected e ->
     WError e ∈ warnings st')
  /\ (forall l e, TDeferred l ∈ _tasks st -> fails_with None [] e l ->
        WError e ∈ warnings st').
Proof.
  intros H.
  assert (Hall : forall k e, k ∈ _tasks st ->
            match k with
            | TValue v => settle_of v = Rejected e
            | TDeferred l => fails_with None [] e l
            end -> WError e ∈ warnings st').
  { intros k e Hk He. rewrite flush_eq in H.
    destruct (_tasks st) as [|k0 ts] eqn:Hts; [inversion Hk|].
    destruct fuel as [|fuel]; [discriminate|].
    apply (proj2 (flush_extends state_of matches bodies _ _ _ H)).
    now apply (run_tasks_warns _ _ k e). }
  split.
  - intros v e Hv He. now apply (Hall (TValue v) e).
  - intros l e Hl He. now apply (Hall (TDeferred l) e).
Qed.

(** *** [start]: rejection, and ['ready'] listeners run once *)

(** From [st] to [st'] the bus stays as active as it was, and on an active
    bus without hook list for ['ready'] none appears. *)
Definition steady (st st' : t) : Prop :=
  isActive st' = isActive st
  /\ (isActive st = true -> _hooks st !! "ready" = None -> _hooks st' !! "ready" = None).

Lemma steady_refl st : steady st st.
Proof. split; auto. Qed.

Lemma steady_trans st1 st2 st3 : steady st1 st2 -> steady st2 st3 -> steady st1 st3.
Proof.
  intros [Ha1 Hh1] [Ha2 Hh2]. split; [congruence|].
  intros Ha Hh. apply Hh2; [congruence|auto].
Qed.

Lemma on_steady caller name l p st : steady st (on caller name l p st).1.
Proof.
  unfold Lifecycle.on.
  destruct (bool_decide (name = "ready") && isActive st) eqn:Hb; [split; auto|].
  destruct (decide (name = "dispose")); [split; auto|]. cbn [fst].
  assert (Hne : isActive st = true -> name <> "ready").
  { intros Ha ->. rewrite Ha in Hb. now rewrite bool_decide_eq_true_2 in Hb. }
  destruct (maxListeners (config st)) as [max|];
    [destruct (max <=? Z.of_nat (length (hooks_of name st)))%Z|];
    (split; [reflexivity|]; intros Ha Hh; cbn;
     rewrite lookup_insert_ne by (apply Hne; exact Ha); exact Hh).
Qed.

Lemma off_steady caller name l st : steady st (off caller name l st).1.
Proof.
  unfold Lifecycle.off.
  destruct (findIndex caller l (hooks_of name st)) as [i|] eqn:Hi; [|apply steady_refl].
  split; [reflexivity|]. intros _ Hh. cbn.
  destruct (decide (name = "ready")) as [->|Hne].
  - unfold hooks_of in Hi. rewrite Hh in Hi. discriminate.
  - now rewrite lookup_insert_ne.
Qed.

Lemma run_cmds_steady cs : forall st, steady st (Lifecycle.run_cmds state_of cs st).
Proof.
  induction cs as [|c cs IH]; intros st; [apply steady_refl|].
  cbn [Lifecycle.run_cmds fold_left].
  change (steady st (Lifecycle.run_cmds state_of cs (Lifecycle.run_cmd state_of c st))).
  eapply steady_trans; [|apply IH].
  destruct c; [apply on_steady | apply off_steady].
Qed.

Lemma invoke_steady l sess args st : steady st (invoke l sess args st).1.
Proof.
  unfold Lifecycle.invoke. cbn [fst].
  eapply steady_trans; [|apply run_cmds_steady]. split; auto.
Qed.

Lemma await_steady v : forall st, steady st (Lifecycle.await state_of v st).1.
Proof.
  induction v as [| | | | | |later f payload IH|later]; intros st;
    try apply steady_refl.
  - cbn [Lifecycle.await]. destruct f.
    + eapply steady_trans; [apply run_cmds_steady | apply IH].
    + apply run_cmds_steady.
  - apply run_cmds_steady.
Qed.

Lemma settle_task_steady v st : steady st (Lifecycle.settle_task state_of v st).
Proof.
  unfold Lifecycle.settle_task, Lifecycle.awaited.
  pose proof (await_steady v st) as H.
  destruct (Lifecycle.await state_of v st) as [st1 [r|e|]]; exact H.
Qed.

Lemma run_task_steady k st : steady st (run_task k st).
Proof.
  rewrite run_task_eq.
  assert (H : steady st (ran state_of bodies k st)).
  { destruct k as [v|l]; cbn [ran]; [apply settle_task_steady|].
    pose proof (invoke_steady l None [] st) as Hi.
    destruct (result (bodies l None [])) as [v|e].
    - eapply steady_trans; [exact Hi | apply settle_task_steady].
    - exact Hi. }
  exact H.
Qed.

Lemma run_tasks_steady ts : forall st, steady st (run_tasks ts st).
Proof.
  induction ts as [|k ts IH]; intros st; [apply steady_refl|].
  cbn [Lifecycle.run_tasks fold_left].
  change (steady st (run_tasks ts (run_task k st))).
  eapply steady_trans; [apply run_task_steady | apply IH].
Qed.

Lemma flush_steady fuel : forall st st', flush fuel st = Some st' -> steady st st'.
Proof.
  induction fuel as [|fuel IH]; intros st st' H; rewrite flush_eq in H;
    destruct (_tasks st) as [|k ts] eqn:Hts; try discriminate.
  - injection H as <-. apply steady_refl.
  - injection H as <-. apply steady_refl.
  - eapply steady_trans; [apply run_tasks_steady | apply IH, H].
Qed.

Lemma start_loop_steady cbs : forall st, steady st (start_loop cbs st).1.
Proof.
  induction cbs as [|cb cbs IH]; intros st; [apply steady_refl|].
  cbn [Lifecycle.start_loop]. pose proof (invoke_steady cb None [] st) as Hi.
  destruct (invoke cb None [] st) as [st1 [v|e]]; cbn [fst] in Hi; [|exact Hi].
  eapply steady_trans; [exact Hi|]. eapply steady_trans; [|apply IH]. split; auto.
Qed.

Lemma start_loop_throw pre : forall st cb post e,
  Forall (returns bodies None []) pre ->
  result (bodies cb None []) = Throw e ->
  (start_loop (pre ++ cb :: post) st).2 = Some e
  /\ invoked (trace (start_loop (pre ++ cb :: post) st).1)
     = invoked (trace st) ++ pre ++ [cb].
Proof.
  induction pre as [|h pre IH]; intros st cb post e Hpre Hcb.
  - cbn [app Lifecycle.start_loop]. rewrite invoke_eq, Hcb. cbn [fst snd].
    split; [reflexivity|]. now rewrite invoke_calls.
  - inversion Hpre as [|? ? [u Hu] Hpre']; subst.
    cbn [app Lifecycle.start_loop]. rewrite invoke_eq, Hu.
    destruct (IH (queue (TValue u) (invoke h None [] st).1) cb post e Hpre' Hcb)
      as [Hr Ht].
    split; [exact Hr|]. rewrite Ht. cbn [trace queue set_tasks].
    rewrite invoke_calls. cbn. now rewrite <- app_assoc.
Qed.

Lemma start_loop_thrown cbs : forall st e,
  (start_loop cbs st).2 = Some e ->
  exists pre cb post,
    cbs = pre ++ cb :: post
    /\ Forall (returns bodies None []) pre
    /\ result (bodies cb None []) = Throw e.
Proof.
  induction cbs as [|h cbs IH]; intros st e H; [discriminate|].
  cbn [Lifecycle.start_loop] in H. rewrite invoke_eq in H.
  destruct (result (bodies h None [])) as [u|e'] eqn:Hh.
  - apply IH in H as (pre & cb & post & -> & Hpre & Hcb).
    exists (h :: pre), cb, post. split; [reflexivity|].
    split; [constructor; [now exists u|exact Hpre]|exact Hcb].
  - cbn in H. injection H as ->. exists [], h, cbs. now repeat split.
Qed.

(** X12: [start] rejects exactly when a ['ready'] callback throws on being
    called: it then rejects with the thrown value whatever the fuel, the
    callbacks after that one are not called, and the bus stays active. *)
Theorem start_rejects_when_a_ready_callback_throws st :
  (forall pre cb post e fuel,
     getHooks "ready" None st = pre ++ cb :: post ->
     Forall (returns bodies None []) pre ->
     result (bodies cb None []) = Throw e ->
     exists st',
       start fuel st = Some (st', Rejected e)
       /\ invoked (trace st') = invoked (trace st) ++ pre ++ [cb]
       /\ isActive st' = true)
  /\ (forall fuel st' e,
        start fuel st = Some (st', Rejected e) ->
        exists pre cb post,
          getHooks "ready" None st = pre ++ cb :: post
          /\ Forall (returns bodies None []) pre
          /\ result (bodies cb None []) = Throw e).
Proof.
  split.
  - intros pre cb post e fuel Hh Hpre Hcb. unfold Lifecycle.start.
    change (getHooks "ready" None (set_isActive true st)) with (getHooks "ready" None st).
    rewrite Hh.
    destruct (start_loop_throw pre (set_isActive true st) cb post e Hpre Hcb) as [Hr Ht].
    pose proof (start_loop_steady (pre ++ cb :: post) (set_isActive true st)) as [Ha _].
    destruct (start_loop _ _) as [st1 thrown]. cbn [fst snd] in *. subst thrown.
    exists st1. now repeat split.
  - intros fuel st' e H. unfold Lifecycle.start in H.
    change (getHooks "ready" None (set_isActive true st))
      with (getHooks "ready" None st) in H.
    pose proof (start_loop_thrown (getHooks "ready" None st) (set_isActive true st)) as Ht.
    destruct (start_loop _ _) as [st1 [e'|]]; cbn [snd] in Ht.
    + injection H as _ <-. now apply Ht.
    + destruct (flush fuel _); discriminate.
Qed.

(** X13: Once [start] has resolved the bus is active, the hook list of ['ready']
    is gone and the task queue is empty: the ['ready'] listeners are not
    called again, and a second [start] resolves at once and changes
    nothing. *)
Theorem ready_listeners_run_once fuel st st' v :
  start fuel st = Some (st', Resolved v) ->
  isActive st' = true
  /\ _hooks st' !! "ready" = None
  /\ getHooks "ready" None st' = []
  /\ forall fuel', start fuel' st' = Some (st', Resolved VUndefined).
Proof.
  intros H. unfold Lifecycle.start in H.
  pose proof (start_loop_steady (getHooks "ready" None (set_isActive true st))
                (set_isActive true st)) as [Ha1 _].
  destruct (start_loop _ _) as [st1 [e|]]; [discriminate|]. cbn in Ha1.
  destruct (flush fuel _) as [st2|] eqn:Hf; [|discriminate].
  injection H as <- _.
  destruct (flush_steady _ _ _ Hf) as [Ha2 Hh2].
  destruct (flush_drains state_of matches bodies _ _ _ Hf) as [Hempty _].
  cbn in Ha2, Hh2.
  assert (Ha : isActive st2 = true) by congruence.
  assert (Hh : _hooks st2 !! "ready" = None).
  { apply Hh2; [exact Ha1|apply lookup_delete_eq]. }
  assert (Hg : getHooks "ready" None st2 = []).
  { unfold Lifecycle.getHooks, hooks_of. now rewrite Hh. }
  split; [exact Ha|]. split; [exact Hh|]. split; [exact Hg|].
  intros fuel'. unfold Lifecycle.start.
  assert (Heta : set_isActive true st2 = st2).
  { destruct st2. cbn in Ha. subst. reflexivity. }
  rewrite Heta, Hg. cbn [Lifecycle.start_loop].
  assert (Hdel : set_hooks (base.delete "ready" (_hooks st2)) st2 = st2).
  { rewrite delete_id by exact Hh. now destruct st2. }
  rewrite Hdel, flush_eq, Hempty. reflexivity.
Qed.

End More.

(** *** Concrete runs *)

(** Each hook adds its own number to the first argument. *)
Definition adders (l : lid) (sess : option session) (args : list value) : body :=
  match args with
  | VNum n :: _ => Body [] (Return (VNum (n + Z.of_nat l)))
  | _ => Body [] (Return (VNum (Z.of_nat l)))
  end.

(** The same, the second hook answering with a promise. *)
Definition async_adders (l : lid) (sess : option session) (args : list value) : body :=
  match args, l with
  | VNum n :: _, 2 => Body [] (Return (VPromise [] true (VNum (n + 2))))
  | VNum n :: _, _ => Body [] (Return (VNum (n + Z.of_nat l)))
  | _, _ => Body [] (Return (VNum (Z.of_nat l)))
  end.

(** Listeners 1, 2 and 3 registered for ['ready'] before [start]. *)
Definition three_ready : t :=
  foldl (fun st l => (Lifecycle.on own 0 "ready" l false st).1) (create unlimited) [1; 2; 3].

(** A queue that holds a rejecting promise and a deferred listener. *)
Definition two_tasks : t :=
  set_tasks [TValue (VPromise [] false (VStr "late")); TDeferred 2] (create unlimited).

Definition two_tasks_flushed : t :=
  match Lifecycle.flush own second_throws 1 two_tasks with
  | Some st => st
  | None => two_tasks
  end.

Lemma on_registers_without_warning_witness :
  let st := three_hooks (at_most 5) in
  let st' := (Lifecycle.on own 0 "event" 4 true st).1 in
  warnings st' = []
  /\ hooks_of "event" st' = [(0, 4); (0, 1); (0, 2); (0, 3)]
  /\ hooks_of "other" st' = [].
Proof.
  destruct (on_registers_without_warning own 0 "event" 4 true (three_hooks (at_most 5)))
    as (Hw & Hh & Ho & _).
  - discriminate.
  - intros [E _]. discriminate.
  - reflexivity.
  - split; [exact Hw|]. split; [exact Hh|]. apply (Ho "other"). discriminate.
Defined.

Lemma off_removes_first_registration_witness :
  let st := three_hooks unlimited in
  Lifecycle.off 1 "event" 2 st = (st, false)
  /\ (Lifecycle.off 0 "event" 2 st).2 = true
  /\ hooks_of "event" (Lifecycle.off 0 "event" 2 st).1 = [(0, 1); (0, 3)].
Proof.
  destruct (off_removes_first_registration 0 "event" 2 (three_hooks unlimited))
    as [_ Hfound].
  destruct (off_removes_first_registration 1 "event" 2 (three_hooks unlimited))
    as [Hmissing _].
  split.
  - apply Hmissing. vm_compute. intros H.
    repeat (apply elem_of_cons in H as [H|H]; [discriminate|]). inversion H.
  - destruct (Hfound [(0, 1)] [(0, 3)]) as (Hr & Hh & _).
    + reflexivity.
    + intros H. apply list_elem_of_singleton in H. discriminate.
    + split; [exact Hr|exact Hh].
Defined.

Lemma off_undoes_on_witness :
  let st := three_hooks unlimited in
  hooks_of "event"
    (Lifecycle.off 0 "event" 4 (Lifecycle.on own 0 "event" 4 false st).1).1
  = [(0, 1); (0, 2); (0, 3)]
  /\ hooks_of "event"
       (Lifecycle.off 0 "event" 2 (Lifecycle.on own 0 "event" 2 true st).1).1
     = [(0, 1); (0, 2); (0, 3)].
Proof.
  split.
  - destruct (off_undoes_on own 0 "event" 4 false (three_hooks unlimited)) as [_ H].
    + discriminate.
    + intros [E _]. discriminate.
    + right. vm_compute. intros H.
      repeat (apply elem_of_cons in H as [H|H]; [discriminate|]). inversion H.
    + exact H.
  - destruct (off_undoes_on own 0 "event" 2 true (three_hooks unlimited)) as [_ H].
    + discriminate.
    + intros [E _]. discriminate.
    + now left.
    + exact H.
Defined.

Lemma bail_and_serial_stop_at_a_failing_hook_witness :
  let st := three_hooks unlimited in
  (Lifecycle.bail own everywhere second_throws None "event" [] st).2 = Throw (VStr "boom")
  /\ invoked (trace (Lifecycle.bail own everywhere second_throws None "event" [] st).1)
     = [1; 2]
  /\ (Lifecycle.serial own everywhere second_rejects None "event" [] st).2
     = Rejected (VStr "boom")
  /\ invoked (trace (Lifecycle.serial own everywhere second_rejects None "event" [] st).1)
     = [1; 2].
Proof.
  assert (Hn : ~ bailed VUndefined) by (intros (_ & _ & H); now apply H).
  destruct (bail_and_serial_stop_at_a_failing_hook own everywhere second_throws
              None "event" [] (three_hooks unlimited)) as [Hb _].
  destruct (bail_and_serial_stop_at_a_failing_hook own everywhere second_rejects
              None "event" [] (three_hooks unlimited)) as [_ Hs].
  destruct (Hb [1] 2 [3] (VStr "boom")) as [Hb1 Hb2];
    [reflexivity | repeat constructor; exists VUndefined; now split | reflexivity |].
  destruct (Hs [1] 2 [3] (VStr "boom")) as [Hs1 Hs2];
    [reflexivity
    | repeat constructor; exists VUndefined, VUndefined; now repeat split
    | right; eexists; split; reflexivity |].
  repeat split; assumption.
Defined.

Lemma adders_return sess a h : returns adders sess a h.
Proof. unfold returns, adders. destruct a as [|[] a]; eexists; reflexivity. Qed.

Lemma chain_threads_the_first_argument_witness :
  let st := three_hooks unlimited in
  (Lifecycle.chain own everywhere adders None "event" [VNum 10; VStr "x"] st).2
  = Return (VNum 16)
  /\ trace (Lifecycle.chain own everywhere adders None "event" [VNum 10; VStr "x"] st).1
     = [Invoked 1 None [VNum 10; VStr "x"]; Invoked 2 None [VNum 11; VStr "x"];
        Invoked 3 None [VNum 13; VStr "x"]]
  /\ Lifecycle.chain own everywhere adders None "none" [VNum 10] st
     = (st, Return (VNum 10)).
Proof.
  destruct (chain_threads_the_first_argument own everywhere adders None "event"
              [VNum 10; VStr "x"] (three_hooks unlimited)) as [_ H].
  destruct (chain_threads_the_first_argument own everywhere adders None "none"
              [VNum 10] (three_hooks unlimited)) as [Hnone _].
  destruct H as (Hr & Ht & _).
  - apply Forall_forall. intros h _ a. apply adders_return.
  - split; [exact Hr|]. split; [exact Ht|]. apply Hnone. reflexivity.
Defined.

Lemma async_adders_fulfil sess a h : fulfils async_adders sess a h.
Proof.
  unfold fulfils, async_adders.
  destruct a as [|[] a]; try (eexists _, _; split; reflexivity).
  destruct h as [|[|[|h]]]; eexists _, _; split; reflexivity.
Qed.

Lemma waterfall_awaits_and_threads_witness :
  let st := three_hooks unlimited in
  (Lifecycle.waterfall own everywhere async_adders None "event" [VNum 10] st).2
  = Resolved (VNum 16)
  /\ (Lifecycle.waterfall own everywhere second_rejects None "event" [] st).2
     = Rejected (VStr "boom")
  /\ invoked (trace (Lifecycle.waterfall own everywhere second_rejects
                       None "event" [] st).1) = [1; 2].
Proof.
  destruct (waterfall_awaits_and_threads own everywhere async_adders None "event"
              [VNum 10] (three_hooks unlimited)) as [Hok _].
  destruct (waterfall_awaits_and_threads own everywhere second_rejects None "event"
              [] (three_hooks unlimited)) as [_ Hfail].
  destruct Hok as [Hr _].
  - apply Forall_forall. intros h _ a. apply async_adders_fulfil.
  - split; [exact Hr|].
    destruct (Hfail [1] 2 [3] (VStr "boom")) as [Hf1 Hf2].
    + reflexivity.
    + repeat constructor. intros a. eexists _, _. split; reflexivity.
    + right. eexists. split; reflexivity.
    + split; assumption.
Defined.

(** The second hook returns a promise that stays pending. *)
Definition second_hangs (l : lid) (sess : option session) (args : list value) : body :=
  match l with
  | 2 => Body [] (Return (VPending []))
  | _ => Body [] (Return VUndefined)
  end.

Lemma parallel_logs_rejections_and_resolves_witness :
  let r := Lifecycle.parallel own everywhere second_rejects None "event" []
             (three_hooks unlimited) in
  let r' := Lifecycle.parallel own everywhere second_hangs None "event" []
              (three_hooks unlimited) in
  r.2 = Resolved VUndefined
  /\ invoked (trace r.1) = [1; 2; 3]
  /\ WError (VStr "boom") ∈ warnings r.1
  /\ r'.2 = Pending
  /\ invoked (trace r'.1) = [1; 2; 3].
Proof.
  destruct (parallel_logs_rejections_and_resolves own everywhere second_rejects
              None "event" [] (three_hooks unlimited)) as (Hi & Hw & Hr & _).
  { apply Forall_forall. intros h _. unfold returns, second_rejects.
    destruct h as [|[|[|h]]]; eexists; reflexivity. }
  destruct (parallel_logs_rejections_and_resolves own everywhere second_hangs
              None "event" [] (three_hooks unlimited)) as (Hi' & _ & _ & Hp).
  { apply Forall_forall. intros h _. unfold returns, second_hangs.
    destruct h as [|[|[|h]]]; eexists; reflexivity. }
  split.
  { apply Hr. apply Forall_forall. intros h _. unfold returned, second_rejects.
    destruct h as [|[|[|h]]]; reflexivity. }
  split; [exact Hi|]. split.
  { apply (Hw 2); [|reflexivity]. vm_compute. right. left. }
  split; [|exact Hi'].
  apply (Hp 2); [|reflexivity]. vm_compute. right. left.
Defined.

Lemma flush_two_tasks :
  Lifecycle.flush own second_throws 1 two_tasks = Some two_tasks_flushed.
Proof. vm_compute. reflexivity. Qed.

Lemma flush_logs_failed_tasks_witness :
  WError (VStr "late") ∈ warnings two_tasks_flushed
  /\ WError (VStr "boom") ∈ warnings two_tasks_flushed
  /\ _tasks two_tasks_flushed = [].
Proof.
  destruct (flush_logs_failed_tasks own everywhere second_throws 1 two_tasks
              two_tasks_flushed flush_two_tasks) as [Hv Hd].
  split; [apply (Hv (VPromise [] false (VStr "late"))); [left|reflexivity]|].
  split; [apply (Hd 2); [right; left|now left]|].
  vm_compute. reflexivity.
Defined.

Lemma start_rejects_when_a_ready_callback_throws_witness :
  exists st',
    Lifecycle.start own everywhere second_throws 5 three_ready
    = Some (st', Rejected (VStr "boom"))
    /\ invoked (trace st') = [1; 2]
    /\ isActive st' = true.
Proof.
  destruct (start_rejects_when_a_ready_callback_throws own everywhere second_throws
              three_ready) as [H _].
  apply (H [1] 2 [3] (VStr "boom") 5).
  - reflexivity.
  - repeat constructor. now exists VUndefined.
  - reflexivity.
Defined.

Lemma ready_listeners_run_once_witness :
  isActive after_start = true
  /\ getHooks everywhere "ready" None after_start = []
  /\ Lifecycle.start own everywhere ready_chain 0 after_start
     = Some (after_start, Resolved VUndefined).
Proof.
  destruct (ready_listeners_run_once own everywhere ready_chain 3
              (before_start unlimited) after_start VUndefined start_ready_chain)
    as (Ha & _ & Hg & Hs).
  split; [exact Ha|]. split; [exact Hg|apply Hs].
Defined.

Lemma start_resolves_witness :
  exists st',
    Lifecycle.start own everywhere undefined_5_10 1 (before_start unlimited)
    = Some (st', Resolved VUndefined).
Proof.
  apply (start_resolves own everywhere undefined_5_10 0 (before_start unlimited)).
  - intros l sess args. unfold undefined_5_10.
    destruct l as [|[|[|[|l]]]]; split; cbn; auto.
  - apply Forall_forall. intros h _. unfold returns, undefined_5_10.
    destruct h as [|[|[|[|h]]]]; eexists; reflexivity.
  - constructor.
Defined.

End LifecycleMore.

(** * More of the registry: [inject], and further properties *)

Module RegistryMore.

Import JS Registry RegistryFacts.

(** The plugin that [inject] builds, line 190:
    [{ inject, apply: callback, name: callback.name }]. *)
Definition injection (deps : Inject) (callback callback_name : jsval) : Plugin :=
  {| self := JObject 0; p_name := callback_name; p_apply := callback;
     p_Config := JUndefined; p_schema := JUndefined; p_using := None;
     p_inject := Some deps; p_reactive := JUndefined |}.

Section More.

Variable call : nat -> jsval -> jsval + jsval.

Local Abbreviation plugin := (Registry.plugin call).
Local Abbreviation resolveConfig := (Registry.resolveConfig call).

(** [inject], lines 189-191, and [using], lines 185-187, which calls it.
    [callback_name] is what [callback.name] reads; reading it from [null] or
    [undefined] throws a [TypeError]. *)
Definition Registry_inject (deps : Inject) (callback callback_name : jsval) (st : t)
    : t * (EffectScope + jsval) :=
  match callback with
  | JUndefined | JNull => (st, inr (JError "cannot read properties of null or undefined"))
  | _ => plugin (injection deps callback callback_name) JUndefined JUndefined st
  end.

Definition Registry_using := Registry_inject.

(** *** Dependency specs *)

Lemma assign_lookup_const names : forall (m : gmap string bool) b k,
  assign m (map (fun n => (n, b)) names) !! k
  = if decide (k ∈ names) then Some b else m !! k.
Proof.
  unfold assign. induction names as [|n names IH]; intros m b k.
  - cbn. rewrite decide_False by apply not_elem_of_nil. reflexivity.
  - cbn [map fold_left fst snd]. rewrite IH.
    destruct (decide (k ∈ names)) as [Hk|Hk].
    + rewrite decide_True by (now right). reflexivity.
    + destruct (decide (k = n)) as [->|Hne].
      * rewrite decide_True by constructor. apply lookup_insert_eq.
      * rewrite decide_False; [now apply lookup_insert_ne|].
        intros H. apply elem_of_cons in H as [H|H]; contradiction.
Qed.

(** X14: What [Inject.resolve] answers for a service name: an absent spec
    requires nothing; an array requires exactly its names; in a dictionary a
    name listed under [optional] is optional even when it is also listed
    under [required], a name listed only under [required] is required, and
    any other name is as its own entry says. *)
Theorem Inject_resolve_lookup k :
  Inject_resolve None !! k = None
  /\ (forall names,
        Inject_resolve (Some (InjectArray names)) !! k
        = if decide (k ∈ names) then Some true else None)
  /\ (forall required optional rest,
        Inject_resolve (Some (InjectDict required optional rest)) !! k
        = if decide (k ∈ default [] optional) then Some false
          else if decide (k ∈ default [] required) then Some true
          else assign ∅ rest !! k).
Proof.
  split; [reflexivity|]. split.
  - intros names. cbn. now rewrite assign_lookup_const.
  - intros required optional rest. cbn.
    destruct optional as [opt|], required as [req|]; cbn;
      rewrite ?assign_lookup_const;
      repeat (rewrite (decide_False (P := k ∈ [])) by apply not_elem_of_nil);
      reflexivity.
Qed.

(** *** Keys *)

Lemma typeof_function k : typeof k = "function" -> k = JFunction (ref k).
Proof. destruct k; try discriminate. reflexivity. Qed.

(** Without [assert], [resolve] answers a function or [undefined]. *)
Lemma resolve_false_cases q :
  (exists f, resolve q false = inl (JFunction f)) \/ resolve q false = inl JUndefined.
Proof.
  unfold resolve. destruct (bool_decide (typeof (self q) = "function")) eqn:Hf.
  - apply bool_decide_eq_true in Hf. left. exists (ref (self q)).
    now rewrite <- typeof_function.
  - destruct (isApplicable q) eqn:Ha; [|now right].
    apply isApplicable_true in Ha as [_ Ha]. left. exists (ref (p_apply q)).
    now rewrite <- typeof_function.
Qed.

Lemma get_function q f st :
  resolve q false = inl (JFunction f) ->
  get q st = _internal st !! f /\ has q st = bool_decide (is_Some (_internal st !! f)).
Proof. intros Hq. unfold get, has. rewrite Hq. now split. Qed.

Lemma get_undefined q st :
  resolve q false = inl JUndefined -> get q st = None /\ has q st = false.
Proof. intros Hq. unfold get, has. rewrite Hq. now split. Qed.

(** What a call of [plugin] that returns a scope wrote to the table. *)
Lemma plugin_table p config error st st' scope :
  plugin p config error st = (st', inl scope) ->
  exists f,
    resolve p false = inl (JFunction f)
    /\ valid_shape p
    /\ ctx_active st = true
    /\ _internal st' = <[f := add_scope (uid scope) (Plugin_resolve p)]> (_internal st)
    /\ ctx_active st' = true.
Proof.
  intros Hp. destruct (plugin_returned call _ _ _ _ _ _ Hp) as (key & Hr & Ha).
  destruct (resolve_true_function p key Hr) as [Hk Hv].
  pose proof (plugin_installs call p config error st key Hr Ha) as P.
  rewrite Hp in P. injection P as Hst Hs.
  exists (ref key). rewrite <- (resolve_assert p Hv), Hr, <- (typeof_function key Hk).
  split; [reflexivity|]. split; [exact Hv|]. split; [exact Ha|].
  split; [|now rewrite Hst].
  rewrite Hst, Hs. cbn.
  match goal with |- context [if ?b then start else _] => destruct b end; reflexivity.
Qed.

Lemma is_Some_bool {A} (o : option A) :
  bool_decide (is_Some o) = match o with Some _ => true | None => false end.
Proof.
  destruct o.
  - apply bool_decide_eq_true_2. eauto.
  - apply bool_decide_eq_false_2. intros [? ?]. discriminate.
Qed.

(** *** [resolveConfig] *)

(** X15: [resolveConfig] never hands [null] or [undefined] on: a missing
    configuration becomes an object.  With [schema] set to [false], or with
    neither [Config] nor [schema], the configuration is not transformed, even
    when [Config] is a function. *)
Theorem resolveConfig_defaults_to_an_object p config :
  (forall config', resolveConfig p config = inl config' ->
     config' <> JUndefined /\ config' <> JNull)
  /\ (p_schema p = JBool false \/ truthy (or_else (p_Config p) (p_schema p)) = false ->
      resolveConfig p config = inl (nullish config (JObject 0))).
Proof.
  assert (Hn : forall v, nullish v (JObject 0) <> JUndefined /\ nullish v (JObject 0) <> JNull).
  { intros v. destruct v; split; discriminate. }
  split.
  - intros config'. unfold Registry.resolveConfig.
    destruct (truthy _ && _).
    + destruct (apply_schema call _ config) as [c|r]; [|discriminate].
      intros H. injection H as <-. apply Hn.
    + intros H. injection H as <-. apply Hn.
  - intros [Hs|Hs]; unfold Registry.resolveConfig.
    + rewrite Hs, bool_decide_eq_true_2 by reflexivity. now rewrite andb_false_r.
    + now rewrite Hs.
Qed.

(** *** [plugin] *)

(** X16: [plugin] throws only for a value of invalid shape or from an inactive
    context, and then it leaves the registry as it was; otherwise it returns
    a scope, whatever the configuration, its transform and the error are. *)
Theorem plugin_throws_only_before_registering p config error st :
  (valid_shape p -> ctx_active st = true ->
   exists st' scope, plugin p config error st = (st', inl scope))
  /\ (forall st' thrown,
        plugin p config error st = (st', inr thrown) ->
        st' = st /\ (~ valid_shape p \/ ctx_active st = false)).
Proof.
  split.
  - intros Hv Ha. destruct (resolve_valid p true Hv) as (key & Hr & _).
    rewrite (plugin_installs call p config error st key Hr Ha). eauto.
  - intros st' thrown Hp.
    destruct (resolve p true) as [key|e] eqn:Hr.
    + destruct (ctx_active st) eqn:Ha.
      * rewrite (plugin_installs call p config error st key Hr Ha) in Hp. discriminate.
      * unfold Registry.plugin in Hp. rewrite Hr, Ha in Hp. cbn in Hp.
        injection Hp as <- _. split; [reflexivity|now right].
    + unfold Registry.plugin in Hp. rewrite Hr in Hp. injection Hp as <- _.
      split; [reflexivity|]. left. intros Hv.
      destruct (resolve_valid p true Hv) as (key & Hr' & _). congruence.
Qed.

(** X17: A configuration that the transform turns into a falsy value other than
    [null] and [undefined] ([0], [false], the empty string) cancels the scope
    as a failing transform does, but with the error argument as it was
    passed, and without an ['internal/error'] event. *)
Theorem plugin_cancels_on_a_falsy_config p config error st config' :
  valid_shape p -> ctx_active st = true -> truthy error = false ->
  resolveConfig p config = inl config' -> truthy config' = false ->
  exists st' scope,
    plugin p config error st = (st', inl scope)
    /\ scope_config scope = config'
    /\ cancelled scope = true
    /\ started scope = false
    /\ scope_error scope = error
    /\ emitted st' = emitted st
    /\ has p st' = true.
Proof.
  intros Hv Ha He Hc Hf. destruct (resolve_valid p true Hv) as (key & Hr & Hk).
  pose proof (plugin_installs call p config error st key Hr Ha) as P.
  rewrite He, Hc in P. cbn in P. rewrite Hf in P.
  eexists _, _. split; [exact P|]. repeat (split; [reflexivity|]).
  destruct (get_resolved p key true
              (Reg (S (_counter st))
                   (<[ref key := add_scope (S (_counter st)) (Plugin_resolve p)]>
                      (_internal st)) true
                   (map (fun s => if decide (uid s = S (_counter st))
                                  then cancel error s else s) (all_scopes st)
                    ++ [cancel error
                          {| uid := S (_counter st); scope_config := config';
                             scope_plugin := ref key; scope_error := JUndefined;
                             cancelled := false; started := false |}])
                   (emitted st)) Hr Hk) as [_ Hh].
  rewrite Hh. cbn. rewrite lookup_insert_eq. apply bool_decide_eq_true_2. eauto.
Qed.

(** X18: Called with a truthy error, [plugin] does not resolve the configuration:
    the result is the same whatever calling the transform would do, the scope
    holds the configuration as it was passed, nothing is emitted, and the
    scope is started when that configuration is truthy and cancelled with the
    error otherwise. *)
Theorem plugin_with_an_error_skips_the_transform p config error st :
  valid_shape p -> ctx_active st = true -> truthy error = true ->
  (forall call', Registry.plugin call' p config error st = plugin p config error st)
  /\ exists st' scope,
       plugin p config error st = (st', inl scope)
       /\ scope_config scope = config
       /\ emitted st' = emitted st
       /\ (if truthy config
           then started scope = true /\ cancelled scope = false
                /\ scope_error scope = JUndefined
           else started scope = false /\ cancelled scope = true
                /\ scope_error scope = error).
Proof.
  intros Hv Ha He. destruct (resolve_valid p true Hv) as (key & Hr & Hk).
  pose proof (plugin_installs call p config error st key Hr Ha) as P.
  rewrite He in P. cbn in P. split.
  - intros call'. pose proof (plugin_installs call' p config error st key Hr Ha) as P'.
    rewrite He in P'. cbn in P'. now rewrite P, P'.
  - eexists _, _. split; [exact P|].
    destruct (truthy config); cbn; repeat split.
Qed.

(** X19: After [plugin] has returned a scope the plugin is registered: [has]
    finds it, [get] answers an entry built by [Plugin.resolve] from this very
    plugin, every reference that resolves to another key is found as before,
    and the size of the registry has grown by one unless the plugin was
    registered already. *)
Theorem plugin_registers_under_its_key p config error st st' scope :
  plugin p config error st = (st', inl scope) ->
  has p st' = true
  /\ (exists meta,
        get p st' = Some meta
        /\ plugin_of meta = self p
        /\ name meta = name (Plugin_resolve p)
        /\ schema meta = or_else (p_Config p) (p_schema p)
        /\ inject meta = inject (Plugin_resolve p))
  /\ (forall q, resolve q false <> resolve p false ->
        get q st' = get q st /\ has q st' = has q st)
  /\ size st' = (if has p st then size st else S (size st)).
Proof.
  intros Hp. destruct (plugin_table _ _ _ _ _ _ Hp) as (f & Hr & _ & _ & Ht & _).
  destruct (get_function p f st' Hr) as [Hg Hh].
  destruct (get_function p f st Hr) as [_ Hh0].
  split; [|split; [|split]].
  - rewrite Hh, Ht, lookup_insert_eq. apply bool_decide_eq_true_2. eauto.
  - rewrite Hg, Ht, lookup_insert_eq. eexists. split; [reflexivity|]. repeat split.
  - intros q Hq. destruct (resolve_false_cases q) as [[g Hg']|Hu].
    + destruct (get_function q g st' Hg') as [-> ->].
      destruct (get_function q g st Hg') as [-> ->].
      assert (f <> g) by (intros ->; congruence).
      rewrite Ht, lookup_insert_ne by assumption. now split.
    + destruct (get_undefined q st' Hu) as [-> ->].
      destruct (get_undefined q st Hu) as [-> ->]. now split.
  - unfold size. rewrite Ht, map_size_insert, Hh0, is_Some_bool.
    destruct (_internal st !! f); reflexivity.
Qed.

(** X20: Two plugins that resolve to the same function, such as two objects
    sharing one [apply] method, or an object and its [apply] function, are one
    plugin to the registry: installing the second replaces the entry of the
    first, which then answers the second plugin, the size stays, and deleting
    through either reference removes the entry for both. *)
Theorem plugins_sharing_a_function_share_an_entry p q c1 e1 c2 e2 st st1 s1 st2 s2 :
  resolve p false = resolve q false ->
  plugin p c1 e1 st = (st1, inl s1) ->
  plugin q c2 e2 st1 = (st2, inl s2) ->
  size st2 = size st1
  /\ (exists meta, get p st2 = Some meta /\ get q st2 = Some meta
                   /\ plugin_of meta = self q)
  /\ has p (delete q st2).1 = false.
Proof.
  intros Hpq H1 H2.
  destruct (plugin_table _ _ _ _ _ _ H1) as (f & Hr1 & _ & _ & Ht1 & _).
  destruct (plugin_table _ _ _ _ _ _ H2) as (g & Hr2 & _ & _ & Ht2 & _).
  assert (g = f) as -> by congruence.
  destruct (get_function p f st2 Hr1) as [Hgp _].
  destruct (get_function q f st2 Hr2) as [Hgq _].
  split; [|split].
  - unfold size. rewrite Ht2. apply map_size_insert_Some.
    rewrite Ht1, lookup_insert_eq. eauto.
  - rewrite Hgp, Hgq, Ht2, lookup_insert_eq. eexists. repeat split.
  - unfold delete. rewrite Hgq, Hr2, Ht2, lookup_insert_eq. cbn.
    unfold has. rewrite Hr1. cbn. rewrite lookup_delete_eq.
    apply bool_decide_eq_false_2. intros [? ?]. discriminate.
Qed.

(** *** [delete] *)

(** X21: [delete] answers what [get] answers; for a reference that is not
    registered, a value of invalid shape included, it changes nothing;
    otherwise it removes one entry: every reference that resolves to another
    key is found as before and the size shrinks by one.  The scopes created
    from the plugin are left as they are. *)
Theorem delete_removes_one_entry p st :
  (delete p st).2 = get p st
  /\ (has p st = false -> delete p st = (st, None))
  /\ (forall q, resolve q false <> resolve p false ->
        get q (delete p st).1 = get q st)
  /\ size (delete p st).1 = (if has p st then pred (size st) else size st)
  /\ all_scopes (delete p st).1 = all_scopes st.
Proof.
  rewrite has_get, is_Some_bool. unfold delete.
  destruct (get p st) as [meta|] eqn:Hget.
  2:{ repeat split. }
  destruct (resolve_false_cases p) as [[f Hr]|Hu].
  2:{ destruct (get_undefined p st Hu) as [Hn _]. congruence. }
  rewrite Hr. cbn [fst snd]. destruct (get_function p f st Hr) as [Hg _].
  split; [reflexivity|]. split; [discriminate|]. split; [|split; [|reflexivity]].
  - intros q Hq. destruct (resolve_false_cases q) as [[g Hg']|Hu].
    + unfold get. rewrite Hg'. cbn.
      assert (f <> g) by (intros ->; congruence).
      now apply lookup_delete_ne.
    + unfold get. now rewrite Hu.
  - unfold size. cbn. rewrite map_size_delete, <- Hg, Hget. reflexivity.
Qed.

(** *** [inject] *)

(** X22: [inject] registers the callback itself: the entry is stored under the
    callback, with the dependencies as [Inject.resolve] reads them and the
    name of the callback (hidden when that name is [apply]), so that the
    callback offered as a plugin is found by [has]; there is no schema, the
    configuration is the default object, the scope is started and nothing is
    emitted. *)
Theorem inject_registers_the_callback deps f callback_name st :
  ctx_active st = true ->
  exists st' scope,
    Registry_inject deps (JFunction f) callback_name st = (st', inl scope)
    /\ scope_config scope = JObject 0
    /\ started scope = true
    /\ cancelled scope = false
    /\ emitted st' = emitted st
    /\ (exists meta,
          _internal st' !! f = Some meta
          /\ inject meta = Inject_resolve (Some deps)
          /\ name meta = (if decide (callback_name = JString "apply")
                          then JUndefined else callback_name)
          /\ schema meta = JUndefined)
    /\ (forall q, resolve q false = inl (JFunction f) -> has q st' = true).
Proof.
  intros Ha.
  pose proof (plugin_installs call (injection deps (JFunction f) callback_name)
                JUndefined JUndefined st (JFunction f) eq_refl Ha) as P.
  cbn in P. unfold Registry_inject. eexists _, _. split; [exact P|].
  repeat (split; [reflexivity|]). split.
  - cbn. rewrite lookup_insert_eq. eexists. split; [reflexivity|]. repeat split.
  - intros q Hq. unfold has. rewrite Hq. cbn. rewrite lookup_insert_eq.
    apply bool_decide_eq_true_2. eauto.
Qed.

(** X23: [inject] throws for a callback that is not a function and leaves the
    registry as it was; when the callback is neither [null] nor [undefined]
    the error is that of [resolve], which reports the type of the object
    that [inject] built, not that of the callback. *)
Theorem inject_rejects_a_non_function deps callback callback_name st :
  typeof callback <> "function" ->
  exists message,
    Registry_inject deps callback callback_name st = (st, inr (JError message))
    /\ (callback <> JUndefined -> callback <> JNull ->
        message = "invalid plugin, expect function or object with an " +:+ quoted "apply"
                  +:+ " method, received object").
Proof.
  intros Hf. destruct callback; try (now contradiction Hf);
    try (eexists; split; [reflexivity|intros H1 H2; try reflexivity; congruence]).
Qed.

End More.

(** *** Concrete runs *)

(** Every function returns [0]. *)
Definition transform_zero (f : nat) (arg : jsval) : jsval + jsval := inl (JNumber 0).

(** [{ schema: false, Config }] with [Config] function 7. *)
Definition schema_off : Plugin :=
  {| self := JFunction 8; p_name := JString "baz"; p_apply := JUndefined;
     p_Config := JFunction 7; p_schema := JBool false; p_using := None;
     p_inject := None; p_reactive := JUndefined |}.

Lemma resolveConfig_defaults_to_an_object_witness :
  resolveConfig transform_throws schema_off JUndefined = inl (JObject 0)
  /\ resolveConfig transform_throws plain_function JNull = inl (JObject 0).
Proof.
  split.
  - apply (proj2 (resolveConfig_defaults_to_an_object transform_throws schema_off
                    JUndefined)). now left.
  - apply (proj2 (resolveConfig_defaults_to_an_object transform_throws plain_function
                    JNull)). now right.
Defined.

Lemma plugin_throws_only_before_registering_witness :
  (exists st' scope,
     plugin transform_throws with_transform JUndefined JUndefined create
     = (st', inl scope))
  /\ exists st' scope,
       plugin transform_throws schema_off (JNumber 0) JUndefined create
       = (st', inl scope).
Proof.
  split.
  - apply (proj1 (plugin_throws_only_before_registering transform_throws with_transform
                    JUndefined JUndefined create)); [now left|reflexivity].
  - apply (proj1 (plugin_throws_only_before_registering transform_throws schema_off
                    (JNumber 0) JUndefined create)); [now left|reflexivity].
Defined.

Lemma plugin_cancels_on_a_falsy_config_witness :
  exists st' scope,
    plugin transform_zero with_transform JUndefined JUndefined create = (st', inl scope)
    /\ scope_config scope = JNumber 0
    /\ cancelled scope = true
    /\ started scope = false
    /\ scope_error scope = JUndefined
    /\ emitted st' = emitted create
    /\ has with_transform st' = true.
Proof.
  apply (plugin_cancels_on_a_falsy_config transform_zero with_transform
           JUndefined JUndefined create (JNumber 0)).
  - now left.
  - reflexivity.
  - reflexivity.
  - reflexivity.
  - reflexivity.
Defined.

Lemma plugin_with_an_error_skips_the_transform_witness :
  exists st' scope,
    plugin transform_throws with_transform (JObject 9) (JError "earlier") create
    = (st', inl scope)
    /\ scope_config scope = JObject 9
    /\ emitted st' = emitted create
    /\ started scope = true /\ cancelled scope = false /\ scope_error scope = JUndefined.
Proof.
  apply (proj2 (plugin_with_an_error_skips_the_transform transform_throws with_transform
                  (JObject 9) (JError "earlier") create ltac:(now left) eq_refl eq_refl)).
Defined.

Lemma plugin_registers_under_its_key_witness :
  let st' := (plugin transform_throws object_with_apply JUndefined JUndefined create).1 in
  has object_with_apply st' = true
  /\ get plain_function st' = get plain_function create
  /\ size st' = 1.
Proof.
  cbn zeta.
  edestruct (plugin_registers_under_its_key transform_throws object_with_apply
               JUndefined JUndefined create) as (Hh & _ & Hf & Hs).
  { vm_compute. reflexivity. }
  split; [exact Hh|]. split; [|exact Hs].
  apply (Hf plain_function). intros H. vm_compute in H. discriminate.
Defined.

Lemma plugins_sharing_a_function_share_an_entry_witness :
  let st1 := (plugin transform_throws object_with_apply JUndefined JUndefined create).1 in
  let st2 := (plugin transform_throws (bare (JFunction 2)) JUndefined JUndefined st1).1 in
  size st2 = size st1
  /\ (exists meta, get object_with_apply st2 = Some meta
                   /\ get (bare (JFunction 2)) st2 = Some meta
                   /\ plugin_of meta = JFunction 2)
  /\ has object_with_apply (delete (bare (JFunction 2)) st2).1 = false.
Proof.
  cbn zeta.
  eapply (plugins_sharing_a_function_share_an_entry transform_throws object_with_apply
            (bare (JFunction 2)) JUndefined JUndefined JUndefined JUndefined create).
  - reflexivity.
  - vm_compute. reflexivity.
  - vm_compute. reflexivity.
Defined.

Lemma delete_removes_one_entry_witness :
  let st := (plugin transform_throws object_with_apply JUndefined JUndefined create).1 in
  delete (bare (JNumber 3)) st = (st, None)
  /\ size (delete object_with_apply st).1 = 0.
Proof.
  cbn zeta. split.
  - apply (proj1 (proj2 (delete_removes_one_entry (bare (JNumber 3)) _))). reflexivity.
  - exact (proj1 (proj2 (proj2 (proj2
             (delete_removes_one_entry object_with_apply
                (plugin transform_throws object_with_apply JUndefined JUndefined
                   create).1))))).
Defined.

Lemma inject_registers_the_callback_witness :
  exists st' scope,
    Registry_inject transform_throws (InjectArray ["database"]) (JFunction 1)
      (JString "foo") create = (st', inl scope)
    /\ started scope = true
    /\ has plain_function st' = true.
Proof.
  destruct (inject_registers_the_callback transform_throws (InjectArray ["database"]) 1
              (JString "foo") create eq_refl)
    as (st' & scope & Hi & _ & Hs & _ & _ & _ & Hh).
  exists st', scope. split; [exact Hi|]. split; [exact Hs|]. now apply Hh.
Defined.

Lemma inject_rejects_a_non_function_witness :
  exists message,
    Registry_inject transform_throws (InjectArray ["database"]) (JNumber 3) JUndefined
      create = (create, inr (JError message))
    /\ message = "invalid plugin, expect function or object with an " +:+ quoted "apply"
                 +:+ " method, received object".
Proof.
  destruct (inject_rejects_a_non_function transform_throws (InjectArray ["database"])
              (JNumber 3) JUndefined create ltac:(discriminate)) as (message & Hi & Hm).
  exists message. split; [exact Hi|]. apply Hm; discriminate.
Defined.

End RegistryMore.
